(** * MemoryStore: the in-memory session store of [src/models/memory.js]

    A shallow embedding of the store (the two tables, the timeout checker
    installed by the constructor, [getSession] and the public operations)
    together with the part of the JavaScript runtime the store calls:
    property reads, truthiness, [JSON.stringify], [JSON.parse], [Date] and
    the relational comparison with [Date.now()]. *)

From stdpp Require Import gmap strings list fin_maps.
From Stdlib Require Import ZArith.

Set Warnings "-register-all".
Set Default Proof Using "Type".

Local Open Scope Z_scope.

(** ** Completions

    A call either returns or throws. The store never catches, so an
    exception raised by the runtime propagates to the caller of the public
    operation; the tables keep whatever was written before the throw. *)

Inductive error : Type :=
  | TypeError    (* property read on undefined/null, unserialisable value *)
  | SyntaxError. (* JSON.parse on a string that is not a JSON text *)

Inductive completion (A : Type) : Type :=
  | Normal (a : A)
  | Throw (e : error).
Arguments Normal {A} a.
Arguments Throw {A} e.

Definition cbind {A B} (c : completion A) (k : A → completion B) : completion B :=
  match c with
  | Normal a => k a
  | Throw e => Throw e
  end.

Definition is_Throw {A} (c : completion A) : Prop :=
  match c with Normal _ => False | Throw _ => True end.

(** ** Values

    [json] is a JSON document: what a JSON text denotes. [value] is a
    JavaScript value as a caller can hand it to the store. Numbers are the
    integer-valued ones (timestamps and counters), objects are finite maps
    from own enumerable property names to values. [VBigInt] stands for the
    values [JSON.stringify] refuses; [VDate None] is an invalid date. *)

Inductive json : Type :=
  | JNull
  | JBool (b : bool)
  | JNum (n : Z)
  | JStr (s : string)
  | JArr (l : list json)
  | JObj (m : gmap string json).

Inductive value : Type :=
  | VUndefined
  | VNull
  | VBool (b : bool)
  | VNum (n : Z)
  | VBigInt (n : Z)
  | VStr (s : string)
  | VDate (t : option Z)
  | VArr (l : list value)
  | VObj (m : gmap string value).

(** What a slot of the Record Table holds besides [undefined]: a string.
    The string is either a JSON text, represented by the document it
    denotes, or a string [s] that is not a JSON text. The store itself only
    ever writes what [JSON.stringify] returns. *)
Inductive text : Type :=
  | Json (j : json)
  | Malformed (s : string).

(** *** Folds over the members of an object *)

Definition map_total (m : gmap string nat) : nat :=
  map_fold (λ _ n acc, (n + acc)%nat) 0%nat m.

Definition map_all (m : gmap string bool) : bool :=
  map_fold (λ _ b acc, b && acc) true m.

Definition map_any (m : gmap string bool) : bool :=
  map_fold (λ _ b acc, b || acc) false m.

Fixpoint json_size (j : json) : nat :=
  match j with
  | JArr l => S (sum_list (json_size <$> l))
  | JObj m => S (map_total (json_size <$> m))
  | _ => 1
  end.

Fixpoint value_size (v : value) : nat :=
  match v with
  | VArr l => S (sum_list (value_size <$> l))
  | VObj m => S (map_total (value_size <$> m))
  | _ => 1
  end.

(** *** Truthiness, [typeof], property access *)

(** [ToBoolean]. *)
Definition truthy (v : value) : bool :=
  match v with
  | VUndefined | VNull => false
  | VBool b => b
  | VNum n | VBigInt n => negb (n =? 0)
  | VStr s => negb (String.eqb s "")
  | VDate _ | VArr _ | VObj _ => true
  end.

(** [v.name] for a name that no built-in prototype defines and that is
    not an array index ([cookie] and [expires] are the two the store
    reads): the own property of an object, [undefined] on any other
    value, and a [TypeError] on [undefined] and [null]. *)
Definition get_prop (v : value) (name : string) : completion value :=
  match v with
  | VUndefined | VNull => Throw TypeError
  | VObj m => Normal (default VUndefined (m !! name))
  | _ => Normal VUndefined
  end.

(** [v.name = x] in sloppy mode, as far as [JSON.stringify] can see the
    result: an object gets the property, a primitive ignores the write,
    an expando on an array or a date is never serialised. *)
Definition set_prop (v : value) (name : string) (x : value) : value :=
  match v with
  | VObj m => VObj (<[name := x]> m)
  | _ => v
  end.

(** ** The codec: [JSON.stringify] and [JSON.parse] *)

Fixpoint contains_bigint (v : value) : bool :=
  match v with
  | VBigInt _ => true
  | VArr l => existsb contains_bigint l
  | VObj m => map_any (contains_bigint <$> m)
  | _ => false
  end.

(** The values that survive the codec unchanged: no [undefined], no
    date and no bigint anywhere inside. *)
Fixpoint plain (v : value) : bool :=
  match v with
  | VUndefined | VBigInt _ | VDate _ => false
  | VArr l => forallb plain l
  | VObj m => map_all (plain <$> m)
  | _ => true
  end.

(** [ToString(v)] on a value without functions throws a [TypeError] when
    the conversion reaches an object with an own [toString] property: the
    own property is not callable and the inherited [valueOf] returns the
    object itself. An array is joined, which converts its elements in
    turn; any other object without an own [toString] prints as
    ["[object Object]"]. *)
Fixpoint to_string_throws (v : value) : bool :=
  match v with
  | VObj m => bool_decide (is_Some (m !! "toString"))
  | VArr l => existsb to_string_throws l
  | _ => false
  end.

(** A document read back as a value. *)
Fixpoint reify (j : json) : value :=
  match j with
  | JNull => VNull
  | JBool b => VBool b
  | JNum n => VNum n
  | JStr s => VStr s
  | JArr l => VArr (reify <$> l)
  | JObj m => VObj (reify <$> m)
  end.

(** [JSON.parse]: a [SyntaxError] on a string that is not a JSON text. *)
Definition JSON_parse (s : text) : completion value :=
  match s with
  | Json j => Normal (reify j)
  | Malformed _ => Throw SyntaxError
  end.

(** ** A runtime for the examples

    It knows one date, the epoch. The examples that do not mention a date
    string or an array deadline evaluate the same under any runtime. *)

Definition epoch : string := "1970-01-01T00:00:00.000Z".

Definition epoch_Date_parse (s : string) : option Z :=
  if String.eqb s epoch then Some 0 else None.

Definition epoch_Date_toISOString (t : Z) : string := epoch.

Definition epoch_coerced_le (v : value) (n : Z) : bool := false.

Section Runtime.

(** The parts of the runtime that stay abstract: the time value of
    [new Date(s)] ([None] for an invalid date), [Date.prototype.toISOString],
    and the outcome of [v <= n] for a string or an array [v], which the
    runtime converts through [ToPrimitive] and [StringToNumber]. *)
Variable Date_parse : string → option Z.
Variable Date_toISOString : Z → string.
Variable coerced_le : value → Z → bool.

(** [SerializeJSONProperty]: [None] is [undefined], the property is left
    out of an object and becomes [null] in an array. A date goes through
    its [toJSON]. Only called on values without a bigint. *)
Fixpoint SerializeJSONProperty (v : value) : option json :=
  match v with
  | VUndefined => None
  | VNull => Some JNull
  | VBool b => Some (JBool b)
  | VNum n => Some (JNum n)
  | VBigInt _ => None
  | VStr s => Some (JStr s)
  | VDate None => Some JNull
  | VDate (Some t) => Some (JStr (Date_toISOString t))
  | VArr l => Some (JArr ((λ x, default JNull (SerializeJSONProperty x)) <$> l))
  | VObj m => Some (JObj (omap SerializeJSONProperty m))
  end.

(** [JSON.stringify(v)]: a JSON text, or [undefined] ([None]) when [v]
    itself is [undefined]; throws a [TypeError] on a bigint. *)
Definition JSON_stringify (v : value) : completion (option text) :=
  if contains_bigint v then Throw TypeError
  else Normal (Json <$> SerializeJSONProperty v).

(** [typeof e === 'string' ? new Date(e) : e]. *)
Definition to_expires (e : value) : value :=
  match e with
  | VStr s => VDate (Date_parse s)
  | _ => e
  end.

(** [expires <= now] for a number [now]. The comparison converts an
    object or an array through [ToPrimitive], which throws where
    [to_string_throws] says so. *)
Definition le_number (expires : value) (now : Z) : completion bool :=
  match expires with
  | VUndefined => Normal false         (* NaN <= now *)
  | VNull => Normal (0 <=? now)
  | VBool b => Normal ((if b then 1 else 0) <=? now)
  | VNum n | VBigInt n => Normal (n <=? now)
  | VDate (Some t) => Normal (t <=? now)
  | VDate None => Normal false
  | VStr _ => Normal (coerced_le expires now)
  | VArr _ =>
      if to_string_throws expires then Throw TypeError
      else Normal (coerced_le expires now)
  | VObj _ =>
      if to_string_throws expires then Throw TypeError
      else Normal false                (* "[object Object]" is NaN *)
  end.

(** ** The store *)

(** The constructor argument; [None] in [timeout] is an [options] object
    without a [timeout] property. *)
Record options : Type := { timeout : option Z }.

(** [sessions] is the Record Table: a slot holds the result of
    [JSON.stringify], a string or [undefined] ([None]).
    [session_timers] is the Timer Table. [session_timeout_checker] tells
    whether the constructor installed the interval. *)
Record MemoryStore : Type := {
  sessions : gmap string (option text);
  session_timers : gmap string Z;
  options_timeout : Z;
  session_timeout_checker : bool
}.

Definition with_sessions (f : gmap string (option text) → gmap string (option text))
    (st : MemoryStore) : MemoryStore :=
  {| sessions := f (sessions st);
     session_timers := session_timers st;
     options_timeout := options_timeout st;
     session_timeout_checker := session_timeout_checker st |}.

Definition with_timers (f : gmap string Z → gmap string Z)
    (st : MemoryStore) : MemoryStore :=
  {| sessions := sessions st;
     session_timers := f (session_timers st);
     options_timeout := options_timeout st;
     session_timeout_checker := session_timeout_checker st |}.

(** [function MemoryStore(options)]. *)
Definition MemoryStore_new (opts : option options) : MemoryStore :=
  let t := match opts with
           | Some {| timeout := Some t |} => t
           | _ => -1
           end in
  {| sessions := ∅;
     session_timers := ∅;
     options_timeout := t;
     session_timeout_checker := bool_decide (0 ≤ t) |}.

(** [this.sessions[sessionId]]: [None] is [undefined], for a missing
    property as for a property holding [undefined]. *)
Definition read_slot (tbl : gmap string (option text)) (sessionId : string)
    : option text :=
  default None (tbl !! sessionId).

(** [ToBoolean] of a stored string: the empty string is falsy; a JSON
    text is never empty. *)
Definition string_truthy (sess : text) : bool :=
  match sess with
  | Json _ => true
  | Malformed s => negb (String.eqb s "")
  end.

(** [Object.keys(tbl)] and the keys a [for ... in] visits. The runtime
    enumerates integer-like keys first and then in insertion order, the
    model in the order of the map; the lemmas about the two loops hold for
    any enumeration without repetition. *)
Definition Object_keys {A} (tbl : gmap string A) : list string :=
  (map_to_list tbl).*1.

(** [MemoryStore.prototype.destroy]. *)
Definition destroy (sessionId : string) (st : MemoryStore) : MemoryStore :=
  with_sessions (delete sessionId) (with_timers (delete sessionId) st).

(** [MemoryStore.prototype.clear]. *)
Definition clear (st : MemoryStore) : MemoryStore :=
  with_sessions (λ _, ∅) (with_timers (λ _, ∅) st).

(** [this.session_timers[sessionId] = this.options.timeout]. *)
Definition prolong (sessionId : string) (st : MemoryStore) : MemoryStore :=
  with_timers (<[sessionId := options_timeout st]>) st.

(** [sess.cookie.expires] on the parsed string. *)
Definition parse_expires (sess : text) : completion (value * value) :=
  cbind (JSON_parse sess) (λ v,
  cbind (get_prop v "cookie") (λ cookie,
  cbind (get_prop cookie "expires") (λ e, Normal (v, e)))).

(** [expires && expires <= Date.now()], as the condition of the [if]:
    the comparison is evaluated, and may throw, only for a truthy
    [expires]. *)
Definition expired (expires : value) (now : Z) : completion bool :=
  if truthy expires then le_number expires now else Normal false.

(** [function getSession(sessionId)], with [now] the value of
    [Date.now()]. [Normal VUndefined] is the bare [return]. *)
Definition getSession (now : Z) (sessionId : string) (st : MemoryStore)
    : completion value * MemoryStore :=
  match read_slot (sessions st) sessionId with
  | None => (Normal VUndefined, st)
  | Some sess =>
      if negb (string_truthy sess) then (Normal VUndefined, st)
      else
        let st := prolong sessionId st in
        match parse_expires sess with
        | Throw e => (Throw e, st)
        | Normal (sess, e) =>
            let expires := to_expires e in
            match expired expires now with
            | Throw err => (Throw err, st)
            | Normal true =>
                (Normal VUndefined,
                 with_timers (delete sessionId)
                   (with_sessions (delete sessionId) st))
            | Normal false => (Normal sess, st)
            end
        end
  end.

(** [MemoryStore.prototype.get]: the callback receives what
    [getSession] returned. *)
Definition get (now : Z) (sessionId : string) (st : MemoryStore)
    : completion value * MemoryStore :=
  getSession now sessionId st.

(** The loop of [MemoryStore.prototype.all]. *)
Fixpoint all_loop (now : Z) (sessionIds : list string) (st : MemoryStore)
    (acc : gmap string value) : completion (gmap string value) * MemoryStore :=
  match sessionIds with
  | [] => (Normal acc, st)
  | sessionId :: rest =>
      match getSession now sessionId st with
      | (Throw e, st) => (Throw e, st)
      | (Normal session, st) =>
          all_loop now rest st
            (if truthy session then <[sessionId := session]> acc else acc)
      end
  end.

(** [MemoryStore.prototype.all]. *)
Definition all (now : Z) (st : MemoryStore)
    : completion (gmap string value) * MemoryStore :=
  all_loop now (Object_keys (sessions st)) st ∅.

(** [MemoryStore.prototype.length]. *)
Definition length (now : Z) (st : MemoryStore) : completion nat * MemoryStore :=
  match all now st with
  | (Throw e, st) => (Throw e, st)
  | (Normal m, st) => (Normal (size m), st)
  end.

(** [MemoryStore.prototype.set]. *)
Definition set (sessionId : string) (session : value) (st : MemoryStore)
    : completion unit * MemoryStore :=
  let st :=
    match read_slot (sessions st) sessionId with
    | None => prolong sessionId st
    | Some _ => st
    end in
  match JSON_stringify session with
  | Throw e => (Throw e, st)
  | Normal s => (Normal (), with_sessions (<[sessionId := s]>) st)
  end.

(** [MemoryStore.prototype.touch]. *)
Definition touch (now : Z) (sessionId : string) (session : value)
    (st : MemoryStore) : completion unit * MemoryStore :=
  match getSession now sessionId st with
  | (Throw e, st) => (Throw e, st)
  | (Normal currentSession, st) =>
      if truthy currentSession then
        match cbind (get_prop session "cookie") (λ cookie,
                JSON_stringify (set_prop currentSession "cookie" cookie)) with
        | Throw e => (Throw e, st)
        | Normal s => (Normal (), with_sessions (<[sessionId := s]>) st)
        end
      else (Normal (), st)
  end.

(** The body of the loop in the interval callback. *)
Definition check_timeout (st : MemoryStore) (sessionId : string) : MemoryStore :=
  match session_timers st !! sessionId with
  | Some t =>
      if t =? 0 then destroy sessionId st
      else with_timers (<[sessionId := t - 1]>) st
  | None => st
  end.

(** The interval callback: one sweep over the Timer Table. *)
Definition checker (st : MemoryStore) : MemoryStore :=
  foldl check_timeout st (Object_keys (session_timers st)).

(** One period of the interval: the callback runs if the constructor
    installed it. *)
Definition tick (st : MemoryStore) : MemoryStore :=
  if session_timeout_checker st then checker st else st.

(** *** Histories *)

Inductive event : Type :=
  | Get (now : Z) (sessionId : string)
  | Set_ (sessionId : string) (session : value)
  | Touch (now : Z) (sessionId : string) (session : value)
  | Destroy (sessionId : string)
  | All (now : Z)
  | Clear
  | Length (now : Z)
  | Tick.

Inductive reply : Type :=
  | Done
  | Session (v : value)
  | Sessions (m : gmap string value)
  | Count (n : nat).

Definition reply_with {A} (f : A → reply) (r : completion A * MemoryStore)
    : completion reply * MemoryStore :=
  (cbind r.1 (λ a, Normal (f a)), r.2).

(** What the caller gets and the store it leaves behind. *)
Definition step (ev : event) (st : MemoryStore) : completion reply * MemoryStore :=
  match ev with
  | Get now sessionId => reply_with Session (get now sessionId st)
  | Set_ sessionId session => reply_with (λ _, Done) (set sessionId session st)
  | Touch now sessionId session =>
      reply_with (λ _, Done) (touch now sessionId session st)
  | Destroy sessionId => (Normal Done, destroy sessionId st)
  | All now => reply_with Sessions (all now st)
  | Clear => (Normal Done, clear st)
  | Length now => reply_with Count (length now st)
  | Tick => (Normal Done, tick st)
  end.

(** The store after a history, thrown exceptions included. *)
Definition run (evs : list event) (st : MemoryStore) : MemoryStore :=
  foldl (λ st ev, (step ev st).2) st evs.

(** *** The four ways [getSession] ends

    Read off the slot alone; [getSession_verdict] relates it to the
    function. *)

Inductive verdict : Type :=
  | Missing
  | Raised (e : error)
  | Lapsed
  | Alive (v : value).

Definition verdict_of (now : Z) (slot : option text) : verdict :=
  match slot with
  | None => Missing
  | Some sess =>
      if string_truthy sess then
        match parse_expires sess with
        | Throw e => Raised e
        | Normal (v, e) =>
            match expired (to_expires e) now with
            | Throw err => Raised err
            | Normal true => Lapsed
            | Normal false => Alive v
            end
        end
      else Missing
  end.

(** The deadline a stored record carries, if it is a timestamp: a number,
    or a string the runtime reads as a date. *)
Definition deadline (e : value) : option Z :=
  match to_expires e with
  | VNum t => Some t
  | VDate t => t
  | _ => None
  end.

(** A stored string that cannot be read as a session: not a JSON text,
    or a document whose value has no [cookie] property. *)
Definition unreadable (sess : text) : Prop :=
  match sess with
  | Malformed _ => True
  | Json j =>
      match reify j with
      | VObj m => m !! "cookie" = None
      | _ => True
      end
  end.

(** The two tables hold the same keys. *)
Definition lockstep (st : MemoryStore) : Prop :=
  dom (session_timers st) = dom (sessions st).

(** An event whose record, if it stores one, can be encoded. *)
Definition encodable (ev : event) : Prop :=
  match ev with
  | Set_ _ session => contains_bigint session = false
  | _ => True
  end.

(** What can take the key [id] out of the Record Table of [st] when no
    checker is installed: [destroy] of that key, [clear], and a read that
    finds the record of that key past its deadline. *)
Definition removal_cause (id : string) (st : MemoryStore) (ev : event) : Prop :=
  match ev with
  | Destroy k => k = id
  | Clear => True
  | Get now k | Touch now k _ =>
      k = id ∧ verdict_of now (read_slot (sessions st) id) = Lapsed
  | All now | Length now => verdict_of now (read_slot (sessions st) id) = Lapsed
  | Set_ _ _ | Tick => False
  end.

(** *** One sweep, seen from one key *)

Definition count_down (t : option Z) : option Z :=
  match t with
  | Some t => if t =? 0 then None else Some (t - 1)
  | None => None
  end.

Definition at_zero (t : option Z) : bool :=
  match t with
  | Some t => t =? 0
  | None => false
  end.

(** The configuration never changes after the constructor. *)
Definition same_config (st st' : MemoryStore) : Prop :=
  options_timeout st' = options_timeout st ∧
  session_timeout_checker st' = session_timeout_checker st.

(** *** Notions for the properties of whole histories *)

(** The key an event addresses, if it addresses one. *)
Definition event_key (ev : event) : option string :=
  match ev with
  | Get _ k | Set_ k _ | Touch _ k _ | Destroy k => Some k
  | All _ | Clear | Length _ | Tick => None
  end.



(** Every key of the Record Table has a timer. *)
Definition has_timers (st : MemoryStore) : Prop :=
  ∀ k, is_Some (sessions st !! k) → is_Some (session_timers st !! k).

(** The checker is installed exactly for a non-negative timeout, and
    every timer is within the countdown: between zero and the timeout
    under the checker, at the timeout without it. *)
Definition well_timed (st : MemoryStore) : Prop :=
  session_timeout_checker st = bool_decide (0 ≤ options_timeout st) ∧
  ∀ k t, session_timers st !! k = Some t →
    if session_timeout_checker st then 0 ≤ t ≤ options_timeout st
    else t = options_timeout st.

(** A round of the idle pattern: one read of [id] at each of the times,
    each followed by a sweep cycle. *)
Definition read_every_cycle (id : string) (times : list Z) : list event :=
  flat_map (λ now, [Get now id; Tick]) times.

(** ** Induction on documents and values *)

Lemma map_total_lookup (m : gmap string nat) k n :
  m !! k = Some n → (n ≤ map_total m)%nat.
Proof.
  unfold map_total. revert k n.
  induction m as [|i x m Hi IH] using map_ind; intros k n Hk.
  - by rewrite lookup_empty in Hk.
  - rewrite map_fold_insert_L; [|intros; lia|done].
    destruct (decide (i = k)) as [->|Hne].
    + rewrite lookup_insert_eq in Hk. injection Hk as ->. lia.
    + rewrite lookup_insert_ne in Hk by done. specialize (IH _ _ Hk). lia.
Qed.

Lemma sum_list_elem (l : list nat) n : n ∈ l → (n ≤ sum_list l)%nat.
Proof. induction 1; simpl; lia. Qed.

Lemma json_ind' (P : json → Prop) :
  P JNull → (∀ b, P (JBool b)) → (∀ n, P (JNum n)) → (∀ s, P (JStr s)) →
  (∀ l, Forall P l → P (JArr l)) →
  (∀ m, map_Forall (λ _, P) m → P (JObj m)) →
  ∀ j, P j.
Proof.
  intros Hnull Hbool Hnum Hstr Harr Hobj j.
  remember (json_size j) as n eqn:Hn. revert j Hn.
  induction (lt_wf n) as [n _ IH]. intros j ->.
  destruct j as [| | | |l|m]; auto.
  - apply Harr, Forall_forall. intros x Hx.
    apply (IH (json_size x)); [|done]. simpl.
    apply Nat.lt_succ_r, sum_list_elem, list_elem_of_fmap. eauto.
  - apply Hobj. intros k x Hk.
    apply (IH (json_size x)); [|done]. simpl.
    apply Nat.lt_succ_r, (map_total_lookup _ k).
    by rewrite lookup_fmap, Hk.
Qed.

Lemma value_ind' (P : value → Prop) :
  P VUndefined → P VNull → (∀ b, P (VBool b)) → (∀ n, P (VNum n)) →
  (∀ n, P (VBigInt n)) → (∀ s, P (VStr s)) → (∀ t, P (VDate t)) →
  (∀ l, Forall P l → P (VArr l)) →
  (∀ m, map_Forall (λ _, P) m → P (VObj m)) →
  ∀ v, P v.
Proof.
  intros Hu Hnull Hbool Hnum Hbig Hstr Hdate Harr Hobj v.
  remember (value_size v) as n eqn:Hn. revert v Hn.
  induction (lt_wf n) as [n _ IH]. intros v ->.
  destruct v as [| | | | | | |l|m]; auto.
  - apply Harr, Forall_forall. intros x Hx.
    apply (IH (value_size x)); [|done]. simpl.
    apply Nat.lt_succ_r, sum_list_elem, list_elem_of_fmap. eauto.
  - apply Hobj. intros k x Hk.
    apply (IH (value_size x)); [|done]. simpl.
    apply Nat.lt_succ_r, (map_total_lookup _ k).
    by rewrite lookup_fmap, Hk.
Qed.

Lemma map_all_true (m : gmap string bool) :
  map_all m = true ↔ ∀ k b, m !! k = Some b → b = true.
Proof.
  unfold map_all. induction m as [|i x m Hi IH] using map_ind.
  - rewrite map_fold_empty. split; [|done]. intros _ k b. by rewrite lookup_empty.
  - rewrite map_fold_insert_L; [|intros ? ? [] [] ?; done|done].
    rewrite andb_true_iff, IH. split.
    + intros [-> Hm] k b Hk. destruct (decide (i = k)) as [->|Hne].
      * rewrite lookup_insert_eq in Hk. congruence.
      * rewrite lookup_insert_ne in Hk by done. eauto.
    + intros Hall. split.
      * apply (Hall i). by rewrite lookup_insert_eq.
      * intros k b Hk. apply (Hall k). rewrite lookup_insert_ne; [done|].
        intros ->. congruence.
Qed.

Lemma map_any_false (m : gmap string bool) :
  map_any m = false ↔ ∀ k b, m !! k = Some b → b = false.
Proof.
  unfold map_any. induction m as [|i x m Hi IH] using map_ind.
  - rewrite map_fold_empty. split; [|done]. intros _ k b. by rewrite lookup_empty.
  - rewrite map_fold_insert_L; [|intros ? ? [] [] ?; done|done].
    rewrite orb_false_iff, IH. split.
    + intros [-> Hm] k b Hk. destruct (decide (i = k)) as [->|Hne].
      * rewrite lookup_insert_eq in Hk. congruence.
      * rewrite lookup_insert_ne in Hk by done. eauto.
    + intros Hall. split.
      * apply (Hall i). by rewrite lookup_insert_eq.
      * intros k b Hk. apply (Hall k). rewrite lookup_insert_ne; [done|].
        intros ->. congruence.
Qed.

(** ** The codec *)

Lemma plain_no_bigint v : plain v = true → contains_bigint v = false.
Proof.
  induction v as [| | | | | | |l IH|m IH] using value_ind'; simpl; try done.
  - intros Hl. induction IH as [|x l Hx _ IHl]; [done|]. simpl in *.
    apply andb_true_iff in Hl as [Hpx Hpl].
    by rewrite Hx, IHl.
  - rewrite map_all_true, map_any_false. intros Hm k b.
    rewrite lookup_fmap. destruct (m !! k) as [x|] eqn:Hk; [|done].
    simpl. intros [= <-]. apply (IH k x Hk), (Hm k).
    by rewrite lookup_fmap, Hk.
Qed.

(** Encoding a plain value and reading the document back gives the
    value. *)
Lemma serialize_plain v :
  plain v = true → ∃ j, SerializeJSONProperty v = Some j ∧ reify j = v.
Proof.
  induction v as [| | | | | | |l IH|m IH] using value_ind'; simpl; try done;
    try (intros _; eexists; split; [done|done]).
  - intros Hl. eexists. split; [done|]. simpl. f_equal.
    induction IH as [|x l Hx _ IHl]; [done|]. simpl in *.
    apply andb_true_iff in Hl as [Hpx Hpl].
    destruct (Hx Hpx) as (j & -> & Hj). simpl. rewrite Hj. f_equal. by apply IHl.
  - rewrite map_all_true. intros Hm. eexists. split; [done|]. simpl. f_equal.
    apply map_eq. intros k. rewrite lookup_fmap, lookup_omap.
    destruct (m !! k) as [x|] eqn:Hk; [|done]. simpl.
    destruct (IH k x Hk) as (j & -> & Hj); [|by rewrite <- Hj].
    apply (Hm k). by rewrite lookup_fmap, Hk.
Qed.

Lemma reify_plain j : plain (reify j) = true.
Proof.
  induction j as [| | | |l IH|m IH] using json_ind'; simpl; try done.
  - induction IH as [|x l Hx _ IHl]; [done|].
    rewrite fmap_cons. cbn [forallb]. by rewrite Hx, IHl.
  - apply map_all_true. intros k b. rewrite !lookup_fmap.
    destruct (m !! k) as [x|] eqn:Hk; [|done]. simpl. intros [= <-].
    by apply (IH k).
Qed.

(** Encoding a decoded document gives the document back. *)
Lemma serialize_reify j : SerializeJSONProperty (reify j) = Some j.
Proof.
  induction j as [| | | |l IH|m IH] using json_ind'; simpl; try done.
  - do 2 f_equal. induction IH as [|x l Hx _ IHl]; [done|].
    rewrite !fmap_cons, Hx, IHl. done.
  - do 2 f_equal. apply map_eq. intros k. rewrite lookup_omap, lookup_fmap.
    destruct (m !! k) as [x|] eqn:Hk; [|done]. simpl. by apply (IH k).
Qed.

(** ** [getSession] *)

Lemma getSession_verdict now id st :
  getSession now id st =
    match verdict_of now (read_slot (sessions st) id) with
    | Missing => (Normal VUndefined, st)
    | Raised e => (Throw e, prolong id st)
    | Lapsed => (Normal VUndefined, destroy id st)
    | Alive v => (Normal v, prolong id st)
    end.
Proof.
  unfold getSession, verdict_of.
  destruct (read_slot (sessions st) id) as [s|]; [|done].
  destruct (string_truthy s); simpl; [|done].
  destruct (parse_expires s) as [[v e]|err]; [|done].
  destruct (expired (to_expires e) now) as [[|]|err]; [|done|done].
  f_equal. unfold destroy, prolong, with_timers, with_sessions; simpl.
  f_equal. apply delete_insert_eq.
Qed.

(** A record that can be read is an object with a cookie. *)
Lemma parse_expires_Normal s v e :
  parse_expires s = Normal (v, e) →
  string_truthy s = true ∧
  ∃ j m c, s = Json j ∧ v = reify j ∧ v = VObj m ∧ m !! "cookie" = Some c ∧
           get_prop c "expires" = Normal e.
Proof.
  unfold parse_expires. destruct s as [j|str]; [|done]. simpl.
  destruct (reify j) as [| | | | | | | |m] eqn:Hj; try done. simpl.
  destruct (m !! "cookie") as [c|] eqn:Hc; [|done]. simpl.
  destruct (get_prop c "expires") as [e'|] eqn:He; [|done]. simpl.
  intros [= <- <-]. split; [done|]. by exists j, m, c.
Qed.

Lemma verdict_Alive_obj now slot v :
  verdict_of now slot = Alive v → ∃ m, v = VObj m.
Proof.
  unfold verdict_of. destruct slot as [s|]; [|done].
  destruct (string_truthy s); [|done].
  destruct (parse_expires s) as [[v' e]|] eqn:Hp; [|done].
  destruct (expired _ _) as [[|]|err]; [done| |done]. intros [= <-].
  apply parse_expires_Normal in Hp as (_ & j & m & c & _ & _ & -> & _). eauto.
Qed.

Lemma read_slot_insert tbl id s : read_slot (<[id := s]> tbl) id = s.
Proof. unfold read_slot. by rewrite lookup_insert_eq. Qed.


Lemma read_slot_Some tbl id s :
  read_slot tbl id = Some s → tbl !! id = Some (Some s).
Proof. unfold read_slot. by destruct (tbl !! id) as [[?|]|]; intros [= ->]. Qed.

Lemma JSON_stringify_plain r :
  plain r = true →
  ∃ j, JSON_stringify r = Normal (Some (Json j)) ∧ reify j = r.
Proof.
  intros Hr. destruct (serialize_plain r Hr) as (j & Hj & Hrj).
  exists j. split; [|done].
  unfold JSON_stringify. by rewrite (plain_no_bigint r Hr), Hj.
Qed.

Lemma parse_expires_reify j e :
  cbind (get_prop (reify j) "cookie") (λ cookie, get_prop cookie "expires")
    = Normal e →
  parse_expires (Json j) = Normal (reify j, e).
Proof.
  unfold parse_expires. simpl.
  destruct (get_prop (reify j) "cookie") as [c|]; [|done]. simpl.
  by destruct (get_prop c "expires"); [intros [= ->]|].
Qed.

(** ** The round trip through the codec *)

(** C5: for every session record [r] made of supported field types (no
    [undefined], date or bigint inside) that carries a cookie whose
    [expires] is absent or not yet due (the test of the deadline against
    the current time completes and says no), [set(id, r)] succeeds and the
    [get(id)] that follows returns a record equal to [r]: encoding and then
    decoding loses nothing. A deadline whose comparison throws is not
    covered: the read throws on it. *)
Theorem set_get_round_trip now id r e st :
  plain r = true →
  cbind (get_prop r "cookie") (λ cookie, get_prop cookie "expires") = Normal e →
  expired (to_expires e) now = Normal false →
  ∃ st1, set id r st = (Normal (), st1) ∧
         get now id st1 = (Normal r, prolong id st1).
Proof.
  intros Hr He Hlive.
  destruct (JSON_stringify_plain r Hr) as (j & Hj & Hrj).
  eexists. unfold set. rewrite Hj. split; [done|].
  unfold get. rewrite getSession_verdict. simpl.
  rewrite read_slot_insert. simpl.
  rewrite <- Hrj in He. rewrite (parse_expires_reify j e He), Hlive.
  by rewrite Hrj.
Qed.

(** ** [destroy] *)

(** C7: [destroy(id)] never fails and is idempotent: it completes normally
    on every store, destroying twice leaves both tables as destroying once
    does, and destroying an id that is in neither table leaves the store
    as it was. *)
Theorem destroy_idempotent id st :
  step (Destroy id) st = (Normal Done, destroy id st) ∧
  destroy id (destroy id st) = destroy id st ∧
  (sessions st !! id = None → session_timers st !! id = None →
   destroy id st = st).
Proof.
  split; [done|]. destruct st as [ss ts t c].
  unfold destroy, with_sessions, with_timers; simpl. split.
  - by rewrite !delete_delete_eq.
  - intros Hs Ht. by rewrite !delete_id.
Qed.

(** ** The boundary of lazy expiration *)

(** C10: the deadline is inclusive and a falsy deadline is none. A stored
    record whose [cookie.expires] equals the current time exactly, as a
    non-zero number or as a date string, is evicted from both tables by
    the read and not returned; a record whose [cookie.expires] is absent,
    [null] or zero is returned at every time, with its timer prolonged. *)
Theorem lazy_boundary_inclusive now id st s v e :
  read_slot (sessions st) id = Some s →
  parse_expires s = Normal (v, e) →
  (((e = VNum now ∧ now ≠ 0) ∨ (∃ str, e = VStr str ∧ Date_parse str = Some now)) →
     get now id st = (Normal VUndefined, destroy id st) ∧
     sessions (destroy id st) !! id = None ∧
     session_timers (destroy id st) !! id = None) ∧
  (e = VUndefined ∨ e = VNull ∨ e = VNum 0 →
     ∀ now', get now' id st = (Normal v, prolong id st)).
Proof.
  intros Hs Hp. pose proof (parse_expires_Normal _ _ _ Hp) as [Ht _].
  split.
  - intros Hnow. split; [|by split; apply lookup_delete_eq].
    unfold get. rewrite getSession_verdict, Hs. simpl. rewrite Ht, Hp.
    replace (expired (to_expires e) now) with (@Normal bool true); [done|].
    destruct Hnow as [[-> Hnz]|(str & -> & Hstr)]; unfold expired; simpl.
    + destruct (Z.eqb_spec now 0); [done|]. simpl. by rewrite Z.leb_refl.
    + rewrite Hstr. simpl. by rewrite Z.leb_refl.
  - intros He now'. unfold get. rewrite getSession_verdict, Hs. simpl.
    rewrite Ht, Hp. by destruct He as [->|[->| ->]].
Qed.

(** ** The sweeper *)

Lemma elem_of_Object_keys {A} (tbl : gmap string A) k :
  k ∈ Object_keys tbl ↔ is_Some (tbl !! k).
Proof.
  unfold Object_keys. rewrite list_elem_of_fmap. split.
  - intros ([k' x] & -> & Hx). apply elem_of_map_to_list in Hx. eauto.
  - intros [x Hx]. exists (k, x). split; [done|]. by apply elem_of_map_to_list.
Qed.

Lemma NoDup_Object_keys {A} (tbl : gmap string A) : NoDup (Object_keys tbl).
Proof. apply NoDup_fst_map_to_list. Qed.

Lemma check_timeout_same st id :
  session_timers (check_timeout st id) !! id = count_down (session_timers st !! id) ∧
  sessions (check_timeout st id) !! id =
    (if at_zero (session_timers st !! id) then None else sessions st !! id).
Proof.
  unfold check_timeout. destruct (session_timers st !! id) as [t|] eqn:Ht; simpl.
  - destruct (t =? 0); simpl.
    + by rewrite !lookup_delete_eq.
    + by rewrite lookup_insert_eq.
  - by rewrite Ht.
Qed.

Lemma check_timeout_other st id k :
  id ≠ k →
  session_timers (check_timeout st id) !! k = session_timers st !! k ∧
  sessions (check_timeout st id) !! k = sessions st !! k.
Proof.
  intros Hne. unfold check_timeout.
  destruct (session_timers st !! id) as [t|]; [|done].
  destruct (t =? 0); simpl.
  - by rewrite !lookup_delete_ne.
  - by rewrite lookup_insert_ne.
Qed.

Lemma check_timeout_config st id : same_config st (check_timeout st id).
Proof.
  unfold check_timeout, same_config.
  destruct (session_timers st !! id) as [t|]; [|done]. by destruct (t =? 0).
Qed.

Lemma foldl_check_timeout ids st k :
  NoDup ids →
  let st' := foldl check_timeout st ids in
  session_timers st' !! k =
    (if decide (k ∈ ids) then count_down (session_timers st !! k)
     else session_timers st !! k) ∧
  sessions st' !! k =
    (if decide (k ∈ ids) then
       if at_zero (session_timers st !! k) then None else sessions st !! k
     else sessions st !! k) ∧
  same_config st st'.
Proof.
  intros Hnd. revert st.
  induction Hnd as [|id ids Hid Hnd IH]; intros st; cbn [foldl].
  - by rewrite !decide_False by apply not_elem_of_nil.
  - destruct (IH (check_timeout st id)) as (Ht & Hs & Hc1 & Hc2).
    destruct (check_timeout_config st id) as [Hc3 Hc4].
    rewrite Ht, Hs. split_and!; [| |unfold same_config; split; congruence].
    + destruct (decide (id = k)) as [->|Hne].
      * rewrite decide_False by done. rewrite decide_True by left.
        apply check_timeout_same.
      * destruct (check_timeout_other st id k Hne) as [-> _].
        destruct (decide (k ∈ ids)).
        -- by rewrite decide_True by by right.
        -- rewrite decide_False; [done|]. rewrite elem_of_cons.
           intros [Heq|Hin]; [by apply Hne|done].
    + destruct (decide (id = k)) as [->|Hne].
      * rewrite decide_False by done. rewrite decide_True by left.
        apply check_timeout_same.
      * destruct (check_timeout_other st id k Hne) as [-> ->].
        destruct (decide (k ∈ ids)).
        -- by rewrite decide_True by by right.
        -- rewrite decide_False; [done|]. rewrite elem_of_cons.
           intros [Heq|Hin]; [by apply Hne|done].
Qed.

(** One sweep: every timer at zero takes its key out of both tables,
    every other timer loses one. *)
Lemma checker_lookup st k :
  session_timers (checker st) !! k = count_down (session_timers st !! k) ∧
  sessions (checker st) !! k =
    (if at_zero (session_timers st !! k) then None else sessions st !! k) ∧
  same_config st (checker st).
Proof.
  unfold checker.
  destruct (foldl_check_timeout (Object_keys (session_timers st)) st k
              (NoDup_Object_keys _)) as (Ht & Hs & Hc).
  rewrite Ht, Hs. split_and!; [| |done].
  - case_decide as Hk; [done|].
    rewrite elem_of_Object_keys, <- eq_None_not_Some in Hk. by rewrite Hk.
  - case_decide as Hk; [done|].
    rewrite elem_of_Object_keys, <- eq_None_not_Some in Hk. by rewrite Hk.
Qed.

Lemma tick_installed st :
  session_timeout_checker st = true → tick st = checker st.
Proof. unfold tick. by intros ->. Qed.

Lemma tick_not_installed st :
  session_timeout_checker st = false → tick st = st.
Proof. unfold tick. by intros ->. Qed.

Lemma tick_config st : same_config st (tick st).
Proof.
  unfold tick. destruct (session_timeout_checker st); [|done].
  apply (checker_lookup st "").
Qed.

Lemma iter_tick_config n st : same_config st (Nat.iter n tick st).
Proof.
  induction n as [|n [IH1 IH2]]; [done|]. rewrite Nat.iter_succ.
  destruct (tick_config (Nat.iter n tick st)) as [H1 H2].
  unfold same_config. split; congruence.
Qed.

(** A timer at [t ≥ 0] survives [t] sweeps and goes on the next. *)
Lemma iter_tick_countdown st id t s n :
  session_timeout_checker st = true →
  session_timers st !! id = Some t →
  sessions st !! id = Some s →
  Z.of_nat n ≤ t →
  session_timers (Nat.iter n tick st) !! id = Some (t - Z.of_nat n) ∧
  sessions (Nat.iter n tick st) !! id = Some s.
Proof.
  intros Hc Ht Hs. induction n as [|n IH]; intros Hn.
  - simpl. by rewrite Ht, Hs, Z.sub_0_r.
  - destruct IH as [IHt IHs]; [lia|]. rewrite Nat.iter_succ.
    destruct (iter_tick_config n st) as [_ Hc'].
    rewrite tick_installed by congruence.
    destruct (checker_lookup (Nat.iter n tick st) id) as (-> & -> & _).
    rewrite IHt, IHs. simpl.
    destruct (Z.eqb_spec (t - Z.of_nat n) 0) as [?|_]; [lia|].
    split; [f_equal; lia|done].
Qed.

(** ** Frame and configuration *)

Lemma same_config_refl st : same_config st st.
Proof. done. Qed.

Lemma same_config_trans st1 st2 st3 :
  same_config st1 st2 → same_config st2 st3 → same_config st1 st3.
Proof. unfold same_config. intros [? ?] [? ?]. split; congruence. Qed.

Lemma getSession_config now id st : same_config st (getSession now id st).2.
Proof.
  rewrite getSession_verdict.
  by destruct (verdict_of now (read_slot (sessions st) id)).
Qed.

(** [getSession] reads and writes the entries of its own key only. *)
Lemma getSession_other now id st k :
  id ≠ k →
  sessions (getSession now id st).2 !! k = sessions st !! k ∧
  session_timers (getSession now id st).2 !! k = session_timers st !! k.
Proof.
  intros Hne. rewrite getSession_verdict.
  destruct (verdict_of now (read_slot (sessions st) id)); simpl;
    by rewrite ?lookup_insert_ne, ?lookup_delete_ne.
Qed.

Lemma getSession_ext now k st1 st2 :
  sessions st1 !! k = sessions st2 !! k →
  session_timers st1 !! k = session_timers st2 !! k →
  options_timeout st1 = options_timeout st2 →
  (getSession now k st1).1 = (getSession now k st2).1 ∧
  sessions (getSession now k st1).2 !! k = sessions (getSession now k st2).2 !! k ∧
  session_timers (getSession now k st1).2 !! k =
    session_timers (getSession now k st2).2 !! k.
Proof.
  intros Hs Ht Hc. rewrite !getSession_verdict.
  unfold read_slot. rewrite Hs.
  destruct (verdict_of now (default None (sessions st2 !! k))); simpl;
    by rewrite ?lookup_insert_eq, ?lookup_delete_eq, ?Hc.
Qed.

(** ** The loop of [all] *)

Lemma all_loop_config now ids st acc :
  same_config st (all_loop now ids st acc).2.
Proof.
  revert st acc. induction ids as [|id ids IH]; intros st acc; [done|].
  cbn [all_loop]. pose proof (getSession_config now id st) as Hc.
  destruct (getSession now id st) as [[v|e] st1]; [|done].
  eapply same_config_trans; [exact Hc|apply IH].
Qed.

(** When the loop completes, every key it visited is as [getSession]
    leaves it, the result holds the records that were returned, and
    the other keys are untouched; when it throws, one of the keys does. *)
Lemma all_loop_spec now ids st acc :
  NoDup ids →
  match all_loop now ids st acc with
  | (Normal m, st') =>
      ∀ k,
        if decide (k ∈ ids) then
          (∃ v, (getSession now k st).1 = Normal v ∧
                m !! k = if truthy v then Some v else acc !! k) ∧
          sessions st' !! k = sessions (getSession now k st).2 !! k ∧
          session_timers st' !! k = session_timers (getSession now k st).2 !! k
        else
          m !! k = acc !! k ∧
          sessions st' !! k = sessions st !! k ∧
          session_timers st' !! k = session_timers st !! k
  | (Throw e, st') => ∃ k, k ∈ ids ∧ (getSession now k st).1 = Throw e
  end.
Proof.
  intros Hnd. revert st acc.
  induction Hnd as [|id ids Hid Hnd IH]; intros st acc; cbn [all_loop].
  - intros k. by rewrite decide_False by apply not_elem_of_nil.
  - destruct (getSession now id st) as [[v|e] st1] eqn:Hg.
    2:{ exists id. split; [left|]. by rewrite Hg. }
    specialize (IH st1 (if truthy v then <[id:=v]> acc else acc)).
    assert (Hst1 : st1 = (getSession now id st).2) by by rewrite Hg.
    destruct (all_loop now ids st1 _) as [[m|e] st'].
    + intros k. specialize (IH k). destruct (decide (id = k)) as [<-|Hne].
      * rewrite decide_True by left. rewrite decide_False in IH by done.
        destruct IH as (Hm & Hs & Ht). rewrite Hg. simpl.
        split_and!; [|done|done].
        exists v. split; [done|]. rewrite Hm.
        destruct (truthy v); [by rewrite lookup_insert_eq|done].
      * destruct (getSession_other now id st k Hne) as [Hso Hto].
        rewrite <- Hst1 in Hso, Hto.
        destruct (getSession_config now id st) as [Hc _].
        rewrite <- Hst1 in Hc.
        destruct (getSession_ext now k st1 st Hso Hto Hc) as (He1 & He2 & He3).
        destruct (decide (k ∈ ids)) as [Hin|Hnin].
        -- rewrite decide_True by by right.
           destruct IH as ((w & Hw & Hm) & Hs & Ht).
           rewrite <- He1, <- He2, <- He3. split_and!; [|done|done].
           exists w. split; [done|]. rewrite Hm.
           destruct (truthy w); [done|].
           destruct (truthy v); [by rewrite lookup_insert_ne|done].
        -- rewrite decide_False.
           2:{ rewrite elem_of_cons. intros [Heq|Hin]; [by apply Hne|done]. }
           destruct IH as (Hm & Hs & Ht). rewrite Hm, Hs, Ht.
           split_and!; [|done|done].
           destruct (truthy v); [by rewrite lookup_insert_ne|done].
    + destruct IH as (k & Hk & Hthrow). exists k. split; [by right|].
      assert (id ≠ k) as Hne by (intros ->; done).
      destruct (getSession_other now id st k Hne) as [Hso Hto].
      rewrite <- Hst1 in Hso, Hto.
      destruct (getSession_config now id st) as [Hc _].
      rewrite <- Hst1 in Hc.
      destruct (getSession_ext now k st1 st Hso Hto Hc) as (He1 & _).
      by rewrite <- He1.
Qed.

(** [all] on the whole table: every key is as [getSession] leaves it. *)
Lemma all_spec now st :
  match all now st with
  | (Normal m, st') =>
      ∀ k,
        (∃ v, (getSession now k st).1 = Normal v ∧
              m !! k = if truthy v then Some v else None) ∧
        sessions st' !! k = sessions (getSession now k st).2 !! k ∧
        session_timers st' !! k = session_timers (getSession now k st).2 !! k
  | (Throw e, st') => ∃ k, (getSession now k st).1 = Throw e
  end.
Proof.
  unfold all.
  pose proof (all_loop_spec now (Object_keys (sessions st)) st ∅
                (NoDup_Object_keys _)) as H.
  destruct (all_loop now _ st ∅) as [[m|e] st'].
  - intros k. specialize (H k). case_decide as Hk.
    + destruct H as ((v & Hv & Hm) & Hs & Ht). split_and!; [|done|done].
      exists v. by rewrite Hm, lookup_empty.
    + rewrite elem_of_Object_keys, <- eq_None_not_Some in Hk.
      destruct H as (Hm & Hs & Ht). rewrite getSession_verdict.
      unfold read_slot. rewrite Hk. simpl.
      split_and!; [|done|done]. exists VUndefined. by rewrite Hm, lookup_empty.
  - destruct H as (k & _ & Hk). eauto.
Qed.

Lemma set_config id r st : same_config st (set id r st).2.
Proof.
  unfold set. destruct (read_slot (sessions st) id);
    by destruct (JSON_stringify r).
Qed.

Lemma touch_config now id r st : same_config st (touch now id r st).2.
Proof.
  unfold touch. pose proof (getSession_config now id st) as Hc.
  destruct (getSession now id st) as [[v|e] st1]; [|done].
  destruct (truthy v); [|done].
  by destruct (cbind (get_prop r "cookie") _).
Qed.

Lemma step_config ev st : same_config st (step ev st).2.
Proof.
  destruct ev as [now id|id r|now id r|id|now| |now|]; simpl; try done.
  - apply getSession_config.
  - apply set_config.
  - apply touch_config.
  - apply all_loop_config.
  - unfold length. pose proof (all_loop_config now (Object_keys (sessions st)) st ∅) as Hc.
    unfold all. by destruct (all_loop now _ st ∅) as [[m|e] st'].
  - apply tick_config.
Qed.

Lemma run_config evs st : same_config st (run evs st).
Proof.
  unfold run. revert st. induction evs as [|ev evs IH]; intros st; [done|].
  simpl. eapply same_config_trans; [apply step_config|apply IH].
Qed.

Lemma new_config opts :
  session_timeout_checker (MemoryStore_new opts)
    = bool_decide (0 ≤ options_timeout (MemoryStore_new opts)).
Proof. done. Qed.

(** What a [set] that completes leaves at its key. *)
Lemma set_Normal id r st st1 :
  set id r st = (Normal (), st1) →
  ∃ s, JSON_stringify r = Normal s ∧
       sessions st1 !! id = Some s ∧
       (read_slot (sessions st) id = None →
        session_timers st1 !! id = Some (options_timeout st)).
Proof.
  unfold set. destruct (JSON_stringify r) as [s|]; [|by destruct (read_slot _ _)].
  exists s. split; [done|].
  destruct (read_slot (sessions st) id) eqn:Hslot; injection H as <-; simpl;
    rewrite lookup_insert_eq; split; try done.
  intros _. by rewrite lookup_insert_eq.
Qed.

(** ** Sweep-driven expiration *)

(** C2: in a store configured with [timeout = N ≥ 0], whatever happened
    before, a key that is created by [set] and then neither read nor set
    stays in both tables through the first [N] sweep cycles, its timer
    going from [N] down to zero, and the [(N+1)]-th cycle takes it out of
    both tables through [destroy]. With [N = 0] the first cycle does. *)
Theorem sweep_evicts_on_cycle_N_plus_1 (N : Z) evs id r st1 :
  0 ≤ N →
  read_slot (sessions (run evs (MemoryStore_new (Some {| timeout := Some N |})))) id
    = None →
  set id r (run evs (MemoryStore_new (Some {| timeout := Some N |})))
    = (Normal (), st1) →
  (∀ n : nat, Z.of_nat n ≤ N →
     id ∈ dom (sessions (Nat.iter n tick st1)) ∧
     session_timers (Nat.iter n tick st1) !! id = Some (N - Z.of_nat n)) ∧
  check_timeout (Nat.iter (Z.to_nat N) tick st1) id
    = destroy id (Nat.iter (Z.to_nat N) tick st1) ∧
  (id ∉ dom (sessions (Nat.iter (S (Z.to_nat N)) tick st1))) ∧
  (id ∉ dom (session_timers (Nat.iter (S (Z.to_nat N)) tick st1))).
Proof.
  intros HN Hfresh Hset.
  set (st := run evs (MemoryStore_new (Some {| timeout := Some N |}))) in *.
  destruct (run_config evs (MemoryStore_new (Some {| timeout := Some N |})))
    as [Ht Hc]. fold st in Ht, Hc. simpl in Ht, Hc.
  destruct (set_config id r st) as [Ht1 Hc1]. rewrite Hset in Ht1, Hc1.
  simpl in Ht1, Hc1.
  destruct (set_Normal id r st st1 Hset) as (s & _ & Hs & Htm).
  specialize (Htm Hfresh). rewrite Ht in Htm.
  assert (session_timeout_checker st1 = true) as Hon.
  { rewrite Hc1, Hc. by apply bool_decide_eq_true. }
  assert (∀ n : nat, Z.of_nat n ≤ N →
     session_timers (Nat.iter n tick st1) !! id = Some (N - Z.of_nat n) ∧
     sessions (Nat.iter n tick st1) !! id = Some s) as Hdown.
  { intros n Hn. by apply iter_tick_countdown. }
  destruct (Hdown (Z.to_nat N)) as [HtN HsN]; [lia|].
  rewrite Z2Nat.id, Z.sub_diag in HtN by done.
  split_and!.
  - intros n Hn. destruct (Hdown n Hn) as [Htn Hsn]. split; [|done].
    apply elem_of_dom. eauto.
  - unfold check_timeout. by rewrite HtN.
  - rewrite Nat.iter_succ, tick_installed.
    2:{ destruct (iter_tick_config (Z.to_nat N) st1) as [_ ->]. done. }
    destruct (checker_lookup (Nat.iter (Z.to_nat N) tick st1) id) as (_ & Hs' & _).
    apply not_elem_of_dom. by rewrite Hs', HtN.
  - rewrite Nat.iter_succ, tick_installed.
    2:{ destruct (iter_tick_config (Z.to_nat N) st1) as [_ ->]. done. }
    destruct (checker_lookup (Nat.iter (Z.to_nat N) tick st1) id) as (Ht' & _ & _).
    apply not_elem_of_dom. by rewrite Ht', HtN.
Qed.

(** Which keys a run of the loop of [all] can change, thrown or not. *)
Lemma all_loop_sessions now ids st acc k :
  NoDup ids →
  (k ∉ ids → sessions (all_loop now ids st acc).2 !! k = sessions st !! k) ∧
  (k ∈ ids →
     sessions (all_loop now ids st acc).2 !! k = sessions st !! k ∨
     sessions (all_loop now ids st acc).2 !! k
       = sessions (getSession now k st).2 !! k).
Proof.
  intros Hnd. revert st acc.
  induction Hnd as [|id ids Hid Hnd IH]; intros st acc; cbn [all_loop].
  - split; [done|]. by intros ?%not_elem_of_nil.
  - pose proof (getSession_config now id st) as [Hc _].
    destruct (decide (id = k)) as [->|Hne].
    + split; [intros Hk; exfalso; apply Hk; left|]. intros _. right.
      destruct (getSession now k st) as [[v|e] st1]; [|done].
      by destruct (IH st1 (if truthy v then <[k:=v]> acc else acc)) as [-> _].
    + destruct (getSession_other now id st k Hne) as [Hso Hto].
      destruct (getSession now id st) as [[v|e] st1] eqn:Hg; simpl in *.
      2:{ split; [done|by left]. }
      destruct (getSession_ext now k st1 st Hso Hto Hc) as (_ & He & _).
      destruct (IH st1 (if truthy v then <[id:=v]> acc else acc)) as [IH1 IH2].
      split.
      * intros Hk. rewrite IH1; [done|]. intros Hin. apply Hk. by right.
      * intros [Heq|Hin]%elem_of_cons; [by destruct Hne|].
        destruct (IH2 Hin) as [->| ->]; [by left|right; done].
Qed.

Lemma getSession_removes now k id st :
  is_Some (sessions st !! id) →
  sessions (getSession now k st).2 !! id = None →
  k = id ∧ verdict_of now (read_slot (sessions st) id) = Lapsed.
Proof.
  intros [x Hx] Hnone. destruct (decide (k = id)) as [->|Hne].
  - split; [done|]. rewrite getSession_verdict in Hnone.
    destruct (verdict_of now (read_slot (sessions st) id)); simpl in *;
      congruence.
  - destruct (getSession_other now k st id Hne) as [Hso _]. congruence.
Qed.

(** Without a checker, a step that takes a key out of the Record Table is
    a [destroy] of the key, a [clear], or a read that found it past its
    deadline. *)
Lemma step_removal_cause ev id st :
  session_timeout_checker st = false →
  is_Some (sessions st !! id) →
  sessions (step ev st).2 !! id = None →
  removal_cause id st ev.
Proof.
  intros Hoff Hin Hnone.
  destruct ev as [now k|k r|now k r|k|now| |now|]; simpl in *.
  - by apply getSession_removes.
  - exfalso. destruct Hin as [x Hx]. unfold set in Hnone.
    destruct (JSON_stringify r) as [s|]; destruct (read_slot (sessions st) k);
      simpl in Hnone; try congruence;
      (destruct (decide (k = id)) as [->|Hne];
       [by rewrite lookup_insert_eq in Hnone
       |rewrite lookup_insert_ne in Hnone by done; congruence]).
  - apply (getSession_removes now k id st Hin). unfold touch in Hnone.
    destruct (getSession now k st) as [[v|e] st1]; [|done].
    destruct (truthy v); [|done].
    destruct (cbind (get_prop r "cookie") _); [|done]. simpl in *.
    destruct (decide (k = id)) as [->|Hne].
    + by rewrite lookup_insert_eq in Hnone.
    + by rewrite lookup_insert_ne in Hnone.
  - destruct (decide (k = id)) as [->|Hne]; [done|].
    rewrite lookup_delete_ne in Hnone by done. destruct Hin. congruence.
  - unfold all in Hnone.
    destruct (all_loop_sessions now (Object_keys (sessions st)) st ∅ id
                (NoDup_Object_keys _)) as [_ Hk].
    destruct Hk as [Hk|Hk].
    + by apply elem_of_Object_keys.
    + destruct Hin. congruence.
    + rewrite Hnone in Hk. symmetry in Hk.
      by apply (getSession_removes now id id st Hin) in Hk as [_ ?].
  - done.
  - assert (sessions (all now st).2 !! id = None) as Hall.
    { unfold length in Hnone. by destruct (all now st) as [[m|e] st']. }
    unfold all in Hall.
    destruct (all_loop_sessions now (Object_keys (sessions st)) st ∅ id
                (NoDup_Object_keys _)) as [_ Hk].
    destruct Hk as [Hk|Hk].
    + by apply elem_of_Object_keys.
    + destruct Hin. congruence.
    + rewrite Hall in Hk. symmetry in Hk.
      by apply (getSession_removes now id id st Hin) in Hk as [_ ?].
  - rewrite tick_not_installed in Hnone by done. destruct Hin. congruence.
Qed.

(** C8: in a store configured with a negative [timeout] (the default
    included) the constructor installs no checker, so a sweep cycle
    changes nothing: whatever happened before, a key that [set] stored is
    still there, with the same stored string, after any number of
    cycles. At any later point, the only steps that take the key out of
    the Record Table are a [destroy] of the key, a [clear], and a read
    that finds its record past its own deadline. *)
Theorem negative_timeout_never_sweeps opts evs id r st1 (n : nat) :
  options_timeout (MemoryStore_new opts) < 0 →
  set id r (run evs (MemoryStore_new opts)) = (Normal (), st1) →
  Nat.iter n tick st1 = st1 ∧
  id ∈ dom (sessions (Nat.iter n tick st1)) ∧
  sessions (Nat.iter n tick st1) !! id = sessions st1 !! id ∧
  (∀ evs' ev,
     id ∈ dom (sessions (run evs' st1)) →
     id ∉ dom (sessions (step ev (run evs' st1)).2) →
     removal_cause id (run evs' st1) ev).
Proof.
  intros Hneg Hset.
  destruct (run_config evs (MemoryStore_new opts)) as [_ Hc].
  destruct (set_config id r (run evs (MemoryStore_new opts))) as [_ Hc1].
  rewrite Hset in Hc1. simpl in Hc1.
  assert (session_timeout_checker st1 = false) as Hoff.
  { rewrite Hc1, Hc, new_config. apply bool_decide_eq_false. lia. }
  assert (Nat.iter n tick st1 = st1) as ->.
  { induction n as [|n IH]; [done|].
    rewrite Nat.iter_succ, IH. by apply tick_not_installed. }
  destruct (set_Normal _ _ _ _ Hset) as (s & _ & Hs & _).
  split_and!; [done| |done|].
  - apply elem_of_dom. eauto.
  - intros evs' ev Hin Hout. apply step_removal_cause.
    + destruct (run_config evs' st1) as [_ ->]. done.
    + by apply elem_of_dom.
    + by apply not_elem_of_dom.
Qed.

(** ** Lazy expiration *)

Lemma deadline_expired e t now :
  deadline e = Some t → t ≤ now → e ≠ VNum 0 →
  expired (to_expires e) now = Normal true.
Proof.
  unfold deadline, expired. intros Hd Ht Hz.
  destruct e as [| | |n| |str|d| |]; simpl in *; try done.
  - injection Hd as ->. destruct (Z.eqb_spec t 0); [congruence|]. simpl.
    f_equal. by apply Z.leb_le.
  - rewrite Hd. f_equal. by apply Z.leb_le.
  - rewrite Hd. f_equal. by apply Z.leb_le.
Qed.

Lemma getSession_Lapsed now id st s v e :
  read_slot (sessions st) id = Some s →
  parse_expires s = Normal (v, e) →
  expired (to_expires e) now = Normal true →
  getSession now id st = (Normal VUndefined, destroy id st).
Proof.
  intros Hs Hp He. rewrite getSession_verdict, Hs. simpl.
  destruct (parse_expires_Normal _ _ _ Hp) as [-> _]. by rewrite Hp, He.
Qed.

Lemma getSession_Alive now id st s v e :
  read_slot (sessions st) id = Some s →
  parse_expires s = Normal (v, e) →
  expired (to_expires e) now = Normal false →
  getSession now id st = (Normal v, prolong id st).
Proof.
  intros Hs Hp He. rewrite getSession_verdict, Hs. simpl.
  destruct (parse_expires_Normal _ _ _ Hp) as [-> _]. by rewrite Hp, He.
Qed.

Lemma getSession_Raised now id st s e :
  read_slot (sessions st) id = Some s →
  string_truthy s = true →
  parse_expires s = Throw e →
  getSession now id st = (Throw e, prolong id st).
Proof.
  intros Hs Ht Hp. rewrite getSession_verdict, Hs. simpl. by rewrite Ht, Hp.
Qed.

(** C1, as amended: a stored record whose [cookie.expires] is a timestamp
    in the past, given as a date string or as a number other than zero,
    is never returned. [get(id)] completes with "not found" and leaves the
    store as [destroy(id)] does, the id in neither table; this holds just
    as well when the [get] comes right after the [set] that stored the
    record. [all()] either completes, without the id in its result and
    with the id in neither table, or throws on the record of another
    id. *)
Theorem lapsed_record_never_returned now id st s v e t :
  read_slot (sessions st) id = Some s →
  parse_expires s = Normal (v, e) →
  deadline e = Some t → t < now → e ≠ VNum 0 →
  get now id st = (Normal VUndefined, destroy id st) ∧
  (id ∉ dom (sessions (destroy id st))) ∧
  (id ∉ dom (session_timers (destroy id st))) ∧
  (∀ r st0, JSON_stringify r = Normal (Some s) →
     get now id (set id r st0).2 = (Normal VUndefined, destroy id st0)) ∧
  match all now st with
  | (Normal m, st') =>
      m !! id = None ∧ (id ∉ dom (sessions st')) ∧
      (id ∉ dom (session_timers st'))
  | (Throw err, _) => ∃ k, k ≠ id ∧ (getSession now k st).1 = Throw err
  end.
Proof.
  intros Hs Hp Hd Ht Hz.
  assert (expired (to_expires e) now = Normal true) as He.
  { apply (deadline_expired e t); [done|lia|done]. }
  pose proof (getSession_Lapsed now id st s v e Hs Hp He) as Hg.
  split_and!.
  - done.
  - apply not_elem_of_dom. apply lookup_delete_eq.
  - apply not_elem_of_dom. apply lookup_delete_eq.
  - intros r st0 Hr. unfold get, set. rewrite Hr.
    erewrite getSession_Lapsed; [|simpl; apply read_slot_insert|done|done].
    f_equal. unfold destroy, with_sessions, with_timers. simpl.
    rewrite delete_insert_eq.
    destruct (read_slot (sessions st0) id); simpl; [done|].
    by rewrite delete_insert_eq.
  - pose proof (all_spec now st) as Hall.
    destruct (all now st) as [[m|err] st'].
    + destruct (Hall id) as ((w & Hw & Hm) & Hs' & Ht').
      rewrite Hg in Hw, Hs', Ht'. simpl in *. injection Hw as <-.
      split_and!; [done| |]; apply not_elem_of_dom.
      * by rewrite Hs', lookup_delete_eq.
      * by rewrite Ht', lookup_delete_eq.
    + destruct Hall as [k Hk]. exists k. split; [|done].
      intros ->. by rewrite Hg in Hk.
Qed.

(** ** When the timer is reset *)

(** C3, as amended: the timer of a key is set to the configured
    [timeout] when [set] creates the key, and whenever a read returns the
    record of the key: through [get], through the read inside [touch], and
    for every key in the result of [all]. A [set] on a key that already
    holds a string leaves every timer as it was. *)
Theorem timer_reset_on_create_and_read now id r st :
  (read_slot (sessions st) id = None →
     session_timers (set id r st).2 !! id = Some (options_timeout st)) ∧
  (∀ v st', get now id st = (Normal v, st') → truthy v = true →
     session_timers st' !! id = Some (options_timeout st)) ∧
  (∀ v, (getSession now id st).1 = Normal v → truthy v = true →
     session_timers (touch now id r st).2 !! id = Some (options_timeout st)) ∧
  (∀ m st' k v, all now st = (Normal m, st') → m !! k = Some v →
     session_timers st' !! k = Some (options_timeout st)) ∧
  (∀ s, read_slot (sessions st) id = Some s →
     session_timers (set id r st).2 = session_timers st).
Proof.
  assert (∀ k v, (getSession now k st).1 = Normal v → truthy v = true →
            session_timers (getSession now k st).2 !! k
              = Some (options_timeout st)) as Hread.
  { intros k v. rewrite getSession_verdict.
    destruct (verdict_of now (read_slot (sessions st) k)); simpl;
      intros [= <-]; try done.
    intros _. apply lookup_insert_eq. }
  split_and!.
  - intros Hfresh. unfold set. rewrite Hfresh.
    destruct (JSON_stringify r); simpl; apply lookup_insert_eq.
  - intros v st' Hget Hv. unfold get in Hget.
    specialize (Hread id v). rewrite Hget in Hread. by apply Hread.
  - intros v Hget Hv. specialize (Hread id v Hget Hv).
    unfold touch. destruct (getSession now id st) as [[w|err] st1]; [|done].
    simpl in Hget. injection Hget as ->. rewrite Hv.
    by destruct (cbind (get_prop r "cookie") _).
  - intros m st' k v Hall Hk. pose proof (all_spec now st) as Hspec.
    rewrite Hall in Hspec. destruct (Hspec k) as ((w & Hw & Hm) & _ & ->).
    apply (Hread k w Hw). rewrite Hk in Hm. by destruct (truthy w).
  - intros s Hs. unfold set. rewrite Hs. by destruct (JSON_stringify r).
Qed.

(** ** The two tables in lockstep *)

(** C4, the failing case: a [set] whose record cannot be encoded throws
    after it has written the timer of a fresh key. The Timer Table then
    holds a key that the Record Table does not, whatever the two tables
    held before. *)
Theorem failed_set_leaves_orphan_timer id r st :
  contains_bigint r = true →
  sessions st !! id = None →
  step (Set_ id r) st = (Throw TypeError, prolong id st) ∧
  id ∈ dom (session_timers (step (Set_ id r) st).2) ∧
  (id ∉ dom (sessions (step (Set_ id r) st).2)) ∧
  ¬ lockstep (step (Set_ id r) st).2.
Proof.
  intros Hbig Hs.
  assert (read_slot (sessions st) id = None) as Hslot.
  { unfold read_slot. by rewrite Hs. }
  assert (step (Set_ id r) st = (Throw TypeError, prolong id st)) as ->.
  { simpl. unfold reply_with, set, JSON_stringify. by rewrite Hslot, Hbig. }
  simpl.
  assert (id ∈ dom (<[id:=options_timeout st]> (session_timers st))) as Hin.
  { apply elem_of_dom. rewrite lookup_insert_eq. eauto. }
  assert (id ∉ dom (sessions st)) as Hnin by by apply not_elem_of_dom.
  split_and!; [done|done|done|].
  unfold lockstep. simpl. intros Heq. apply Hnin. by rewrite <- Heq.
Qed.

Lemma lockstep_getSession now id st :
  lockstep st → lockstep (getSession now id st).2.
Proof.
  unfold lockstep. intros Hl. rewrite getSession_verdict.
  destruct (verdict_of now (read_slot (sessions st) id)) eqn:Hv; simpl;
    try done.
  - rewrite dom_insert_lookup_L; [done|].
    apply elem_of_dom. rewrite Hl. apply elem_of_dom.
    unfold verdict_of, read_slot in Hv. by destruct (sessions st !! id).
  - by rewrite !dom_delete_L, Hl.
  - rewrite dom_insert_lookup_L; [done|].
    apply elem_of_dom. rewrite Hl. apply elem_of_dom.
    unfold verdict_of, read_slot in Hv. by destruct (sessions st !! id).
Qed.

Lemma lockstep_all_loop now ids st acc :
  lockstep st → lockstep (all_loop now ids st acc).2.
Proof.
  revert st acc. induction ids as [|id ids IH]; intros st acc Hl; [done|].
  cbn [all_loop]. pose proof (lockstep_getSession now id st Hl) as Hl1.
  destruct (getSession now id st) as [[v|e] st1]; [|done]. by apply IH.
Qed.

Lemma lockstep_checker st : lockstep st → lockstep (checker st).
Proof.
  unfold lockstep. intros Hl. apply set_eq. intros k.
  assert (k ∈ dom (session_timers st) ↔ k ∈ dom (sessions st)) as Hk
    by by rewrite Hl.
  rewrite !elem_of_dom in Hk. rewrite !elem_of_dom.
  destruct (checker_lookup st k) as (-> & -> & _).
  destruct (session_timers st !! k) as [t|]; simpl.
  - destruct (t =? 0); [by rewrite <- !not_eq_None_Some|].
    split; [intros _; apply Hk; eauto|eauto].
  - rewrite <- Hk. done.
Qed.

(** The one way out of lockstep is a [set] that throws: every other
    step keeps the two tables on the same keys. *)
Lemma lockstep_step ev st :
  lockstep st →
  (∀ id r, ev = Set_ id r → (step ev st).1 = Normal Done) →
  lockstep (step ev st).2.
Proof.
  intros Hl Hset.
  destruct ev as [now id|id r|now id r|id|now| |now|]; simpl.
  - by apply lockstep_getSession.
  - specialize (Hset id r eq_refl). simpl in Hset. unfold set in *.
    destruct (JSON_stringify r) as [s|]; [|by destruct (read_slot _ _)].
    unfold lockstep in *.
    destruct (read_slot (sessions st) id) eqn:Hslot; simpl.
    + apply read_slot_Some in Hslot.
      rewrite dom_insert_lookup_L; [done|]. by rewrite Hslot.
    + by rewrite !dom_insert_L, Hl.
  - unfold touch. pose proof (lockstep_getSession now id st Hl) as Hl1.
    rewrite getSession_verdict in *.
    destruct (verdict_of now (read_slot (sessions st) id)); simpl in *;
      try done.
    destruct (truthy v); [|done].
    destruct (cbind (get_prop r "cookie") _); [|done].
    unfold lockstep in *. simpl in *. by rewrite !dom_insert_L, Hl.
  - unfold lockstep in *. simpl. by rewrite !dom_delete_L, Hl.
  - by apply lockstep_all_loop.
  - done.
  - unfold length, all.
    pose proof (lockstep_all_loop now (Object_keys (sessions st)) st ∅ Hl).
    by destruct (all_loop now _ st ∅) as [[m|e] st'].
  - unfold tick. destruct (session_timeout_checker st); [|done].
    by apply lockstep_checker.
Qed.

Lemma lockstep_run evs st :
  Forall encodable evs → lockstep st → lockstep (run evs st).
Proof.
  unfold run. intros Hevs. revert st.
  induction Hevs as [|ev evs Hev _ IH]; intros st Hl; [done|].
  simpl. apply IH, lockstep_step; [done|].
  intros id r ->. simpl in *. unfold reply_with, set, JSON_stringify.
  rewrite Hev. by destruct (read_slot _ _).
Qed.

(** ** [touch] *)

Lemma contains_bigint_reify j : contains_bigint (reify j) = false.
Proof. apply plain_no_bigint, reify_plain. Qed.

(** C6: [touch(id, r2)] on an id that holds a record that is not due
    (the test of its deadline against the current time completes and says
    no), with [r2.cookie] readable and encodable, completes and stores a
    document in which every member but [cookie] is the member stored
    before and [cookie] is the encoding of [r2.cookie] (which reads back
    as [r2.cookie] itself when that is plain); the strings of other ids
    are untouched. When the lookup finds nothing, [touch] completes
    without adding a key to the Record Table. *)
Theorem touch_replaces_cookie_only now id r2 st :
  (∀ s v e c2,
     read_slot (sessions st) id = Some s →
     parse_expires s = Normal (v, e) →
     expired (to_expires e) now = Normal false →
     get_prop r2 "cookie" = Normal c2 →
     contains_bigint c2 = false →
     ∃ st' m1 m',
       touch now id r2 st = (Normal (), st') ∧
       s = Json (JObj m1) ∧
       read_slot (sessions st') id = Some (Json (JObj m')) ∧
       (∀ k, k ≠ "cookie" → m' !! k = m1 !! k) ∧
       m' !! "cookie" = SerializeJSONProperty c2 ∧
       (plain c2 = true → reify <$> m' !! "cookie" = Some c2) ∧
       (∀ k, k ≠ id → sessions st' !! k = sessions st !! k)) ∧
  ((getSession now id st).1 = Normal VUndefined →
     ∃ st', touch now id r2 st = (Normal (), st') ∧
            dom (sessions st') ⊆ dom (sessions st)).
Proof.
  split.
  - intros s v e c2 Hs Hp He Hc2 Hbig.
    pose proof (getSession_Alive now id st s v e Hs Hp He) as Hg.
    destruct (parse_expires_Normal _ _ _ Hp)
      as (_ & j & m & c & -> & Hv & Hm & Hc & _).
    destruct j as [| | | | |m1]; rewrite Hv in Hm; try done.
    simpl in Hm. injection Hm as <-.
    set (m' := omap SerializeJSONProperty (<["cookie" := c2]> (reify <$> m1))).
    assert (contains_bigint (VObj (<["cookie" := c2]> (reify <$> m1))) = false)
      as Hnb.
    { simpl. apply map_any_false. intros k b. rewrite lookup_fmap.
      destruct (decide ("cookie" = k)) as [<-|Hne].
      - rewrite lookup_insert_eq. simpl. congruence.
      - rewrite lookup_insert_ne, lookup_fmap by done.
        destruct (m1 !! k); simpl; [|done]. intros [= <-].
        apply contains_bigint_reify. }
    exists (with_sessions (<[id := Some (Json (JObj m'))]>) (prolong id st)), m1, m'.
    split_and!.
    + unfold touch. rewrite Hg, Hv. simpl. rewrite Hc2. simpl.
      unfold JSON_stringify. by rewrite Hnb.
    + done.
    + simpl. apply read_slot_insert.
    + intros k Hk. unfold m'. rewrite lookup_omap, lookup_insert_ne by done.
      rewrite lookup_fmap. destruct (m1 !! k) as [x|]; [|done]. simpl.
      apply serialize_reify.
    + unfold m'. by rewrite lookup_omap, lookup_insert_eq.
    + intros Hplain. unfold m'. rewrite lookup_omap, lookup_insert_eq. simpl.
      destruct (serialize_plain c2 Hplain) as (jc & -> & Hjc). simpl.
      by rewrite Hjc.
    + intros k Hk. simpl. by rewrite lookup_insert_ne.
  - intros Hg. unfold touch. rewrite getSession_verdict in *.
    destruct (verdict_of now (read_slot (sessions st) id)) eqn:Hv;
      simpl in *; try done.
    + by eexists.
    + eexists. split; [done|]. simpl. apply subseteq_dom, delete_subseteq.
    + apply verdict_Alive_obj in Hv as [m ->]. done.
Qed.

(** ** Reading what cannot be read *)

Lemma parse_expires_unreadable s :
  unreadable s → ∃ err, parse_expires s = Throw err.
Proof.
  unfold unreadable, parse_expires. destruct s as [j|str]; simpl; [|eauto].
  destruct (reify j) as [| | | | | | | |m]; simpl; eauto.
  intros ->. simpl. eauto.
Qed.

(** C9, as amended: when the slot of an id holds a non-empty string that
    is not a JSON text, or a JSON text whose value has no [cookie]
    property, the read throws instead of completing with "not found":
    [get] and [touch] throw after prolonging the timer of the id and
    leave the string in place, and [all] and [length] throw. A slot that
    holds [undefined] or the empty string is read as "not found". *)
Theorem unreadable_record_throws now id st s :
  read_slot (sessions st) id = Some s →
  string_truthy s = true →
  unreadable s →
  ∃ err,
    get now id st = (Throw err, prolong id st) ∧
    (∀ r2, touch now id r2 st = (Throw err, prolong id st)) ∧
    sessions (prolong id st) !! id = Some (Some s) ∧
    is_Throw (all now st).1 ∧
    is_Throw (length now st).1.
Proof.
  intros Hs Ht Hu. destruct (parse_expires_unreadable s Hu) as [err Hp].
  pose proof (getSession_Raised now id st s err Hs Ht Hp) as Hg.
  assert (is_Throw (all now st).1) as Hall.
  { pose proof (all_spec now st) as Hspec.
    destruct (all now st) as [[m|e] st']; [|done].
    destruct (Hspec id) as ((w & Hw & _) & _). by rewrite Hg in Hw. }
  exists err. split_and!; [done| |by apply read_slot_Some|done|].
  - intros r2. unfold touch. by rewrite Hg.
  - unfold length. by destruct (all now st) as [[m|e] st'].
Qed.

(** ** Further properties of the operations *)

Lemma store_eq st st' :
  sessions st = sessions st' →
  session_timers st = session_timers st' →
  same_config st st' →
  st = st'.
Proof.
  destruct st, st'. unfold same_config. simpl. by intros -> -> [-> ->].
Qed.

(** X1: an operation on one id is local to that id. Whatever [get],
    [set], [touch] or [destroy] on [id] does, and whether it returns or
    throws, the stored string and the timer of every other key are left as
    they were. *)
Theorem step_touches_its_key_only ev id k st :
  event_key ev = Some id → id ≠ k →
  sessions (step ev st).2 !! k = sessions st !! k ∧
  session_timers (step ev st).2 !! k = session_timers st !! k.
Proof.
  intros Hev Hne.
  destruct ev as [now i|i r|now i r|i|now| |now|]; simpl in Hev; try done;
    injection Hev as ->; simpl.
  - by apply getSession_other.
  - unfold set.
    destruct (read_slot (sessions st) id), (JSON_stringify r); simpl;
      by rewrite ?lookup_insert_ne.
  - unfold touch. pose proof (getSession_other now id st k Hne) as Ho.
    destruct (getSession now id st) as [[v|e] st1]; [|done].
    destruct (truthy v); [|done].
    destruct (cbind (get_prop r "cookie") _); [|done]. simpl in *.
    by rewrite lookup_insert_ne.
  - by rewrite !lookup_delete_ne.
Qed.

(** ** Invariants of every history *)

Lemma has_timers_getSession now id st :
  has_timers st → has_timers (getSession now id st).2.
Proof.
  unfold has_timers. intros Hst k. rewrite getSession_verdict.
  destruct (verdict_of now (read_slot (sessions st) id)); simpl;
    [by apply Hst| | |].
  - intros Hk. destruct (decide (id = k)) as [->|Hne].
    + rewrite lookup_insert_eq. eauto.
    + rewrite lookup_insert_ne by done. by apply Hst.
  - destruct (decide (id = k)) as [->|Hne].
    + rewrite lookup_delete_eq. by intros [? ?].
    + rewrite !lookup_delete_ne by done. by apply Hst.
  - intros Hk. destruct (decide (id = k)) as [->|Hne].
    + rewrite lookup_insert_eq. eauto.
    + rewrite lookup_insert_ne by done. by apply Hst.
Qed.

Lemma has_timers_all_loop now ids st acc :
  has_timers st → has_timers (all_loop now ids st acc).2.
Proof.
  revert st acc. induction ids as [|id ids IH]; intros st acc Hst; [done|].
  cbn [all_loop]. pose proof (has_timers_getSession now id st Hst) as H1.
  destruct (getSession now id st) as [[v|e] st1]; [|done]. by apply IH.
Qed.

Lemma has_timers_tick st : has_timers st → has_timers (tick st).
Proof.
  intros Hst. unfold tick. destruct (session_timeout_checker st); [|done].
  unfold has_timers in *. intros k.
  destruct (checker_lookup st k) as (-> & -> & _).
  destruct (session_timers st !! k) as [t|] eqn:Ht; simpl.
  - destruct (t =? 0); [done|intros _; by eexists].
  - intros Hk. specialize (Hst k Hk). rewrite Ht in Hst. by destruct Hst.
Qed.

Lemma has_timers_step ev st : has_timers st → has_timers (step ev st).2.
Proof.
  intros Hst. destruct ev as [now id|id r|now id r|id|now| |now|]; simpl.
  - by apply has_timers_getSession.
  - unfold set, has_timers in *. intros k.
    destruct (read_slot (sessions st) id) eqn:Hslot.
    + apply read_slot_Some in Hslot.
      assert (is_Some (session_timers st !! id)) as Hid
        by (apply Hst; rewrite Hslot; eauto).
      destruct (JSON_stringify r) as [s|]; simpl; [|by auto].
      destruct (decide (id = k)) as [->|Hne]; [done|].
      rewrite lookup_insert_ne by done. auto.
    + destruct (JSON_stringify r) as [s|]; simpl.
      * destruct (decide (id = k)) as [->|Hne].
        -- rewrite !lookup_insert_eq. eauto.
        -- rewrite !lookup_insert_ne by done. auto.
      * intros Hk. destruct (decide (id = k)) as [->|Hne].
        -- rewrite lookup_insert_eq. eauto.
        -- rewrite lookup_insert_ne by done. auto.
  - unfold touch. rewrite getSession_verdict.
    pose proof (has_timers_getSession now id st Hst) as H1.
    rewrite getSession_verdict in H1.
    destruct (verdict_of now (read_slot (sessions st) id)); simpl in *;
      try done.
    destruct (truthy v); [|done].
    destruct (cbind (get_prop r "cookie") _); [|done].
    unfold has_timers in *. simpl in *. intros k.
    destruct (decide (id = k)) as [->|Hne].
    + rewrite !lookup_insert_eq. eauto.
    + rewrite !lookup_insert_ne by done. intros Hk.
      specialize (H1 k Hk). by rewrite lookup_insert_ne in H1.
  - unfold has_timers in *. simpl. intros k.
    destruct (decide (id = k)) as [->|Hne].
    + rewrite lookup_delete_eq. by intros [? ?].
    + rewrite !lookup_delete_ne by done. auto.
  - by apply has_timers_all_loop.
  - unfold has_timers. simpl. intros k. rewrite lookup_empty. by intros [? ?].
  - unfold length, all.
    pose proof (has_timers_all_loop now (Object_keys (sessions st)) st ∅ Hst).
    by destruct (all_loop now _ st ∅) as [[m|e] st'].
  - by apply has_timers_tick.
Qed.

Lemma has_timers_run opts evs : has_timers (run evs (MemoryStore_new opts)).
Proof.
  unfold run.
  assert (has_timers (MemoryStore_new opts)) as Hnew.
  { intros k. simpl. rewrite lookup_empty. by intros [? ?]. }
  revert Hnew. generalize (MemoryStore_new opts).
  induction evs as [|ev evs IH]; intros st Hst; [done|].
  simpl. by apply IH, has_timers_step.
Qed.

(** X2: every record has a timer. After any history on a store built by
    the constructor, sets that throw included, each key of the Record Table
    is a key of the Timer Table. *)
Theorem every_record_has_a_timer opts evs :
  dom (sessions (run evs (MemoryStore_new opts)))
    ⊆ dom (session_timers (run evs (MemoryStore_new opts))).
Proof.
  intros k Hk. apply elem_of_dom. apply has_timers_run. by apply elem_of_dom.
Qed.

Lemma well_timed_mono st st' :
  same_config st st' →
  (∀ k t, session_timers st' !! k = Some t →
          session_timers st !! k = Some t ∨ t = options_timeout st) →
  well_timed st → well_timed st'.
Proof.
  intros [Hc1 Hc2] Hsub [Hdec Hrange]. unfold well_timed.
  rewrite Hc1, Hc2. split; [done|]. intros k t Hk.
  destruct (Hsub k t Hk) as [Hold| ->]; [by apply (Hrange k)|].
  rewrite Hdec. case_bool_decide; lia.
Qed.

Lemma getSession_timers now id st k t :
  session_timers (getSession now id st).2 !! k = Some t →
  session_timers st !! k = Some t ∨ t = options_timeout st.
Proof.
  rewrite getSession_verdict.
  destruct (verdict_of now (read_slot (sessions st) id)); simpl; [by left| | |].
  - destruct (decide (id = k)) as [->|Hne].
    + rewrite lookup_insert_eq. intros [= <-]. by right.
    + rewrite lookup_insert_ne by done. by left.
  - destruct (decide (id = k)) as [->|Hne].
    + by rewrite lookup_delete_eq.
    + rewrite lookup_delete_ne by done. by left.
  - destruct (decide (id = k)) as [->|Hne].
    + rewrite lookup_insert_eq. intros [= <-]. by right.
    + rewrite lookup_insert_ne by done. by left.
Qed.

Lemma well_timed_getSession now id st :
  well_timed st → well_timed (getSession now id st).2.
Proof.
  apply well_timed_mono; [apply getSession_config|].
  apply getSession_timers.
Qed.

Lemma well_timed_all_loop now ids st acc :
  well_timed st → well_timed (all_loop now ids st acc).2.
Proof.
  revert st acc. induction ids as [|id ids IH]; intros st acc Hst; [done|].
  cbn [all_loop]. pose proof (well_timed_getSession now id st Hst) as H1.
  destruct (getSession now id st) as [[v|e] st1]; [|done]. by apply IH.
Qed.

Lemma well_timed_step ev st : well_timed st → well_timed (step ev st).2.
Proof.
  intros Hst. destruct ev as [now id|id r|now id r|id|now| |now|]; simpl.
  - by apply well_timed_getSession.
  - revert Hst. apply well_timed_mono; [apply set_config|].
    intros k t. unfold set.
    destruct (read_slot (sessions st) id), (JSON_stringify r); simpl;
      try (by left).
    + destruct (decide (id = k)) as [->|Hne].
      * rewrite lookup_insert_eq. intros [= <-]. by right.
      * rewrite lookup_insert_ne by done. by left.
    + destruct (decide (id = k)) as [->|Hne].
      * rewrite lookup_insert_eq. intros [= <-]. by right.
      * rewrite lookup_insert_ne by done. by left.
  - revert Hst. apply well_timed_mono; [apply touch_config|].
    intros k t. unfold touch.
    pose proof (getSession_timers now id st k t) as Hg.
    destruct (getSession now id st) as [[v|e] st1]; [|done].
    destruct (truthy v); [|done].
    by destruct (cbind (get_prop r "cookie") _).
  - revert Hst. apply well_timed_mono; [done|]. intros k t. simpl.
    destruct (decide (id = k)) as [->|Hne].
    + by rewrite lookup_delete_eq.
    + rewrite lookup_delete_ne by done. by left.
  - by apply well_timed_all_loop.
  - revert Hst. apply well_timed_mono; [done|]. intros k t. simpl.
    by rewrite lookup_empty.
  - unfold length, all.
    pose proof (well_timed_all_loop now (Object_keys (sessions st)) st ∅ Hst).
    by destruct (all_loop now _ st ∅) as [[m|e] st'].
  - unfold tick. destruct (session_timeout_checker st) eqn:Hon; [|done].
    destruct Hst as [Hdec Hrange]. rewrite Hon in Hrange.
    destruct (checker_lookup st "") as (_ & _ & Hc1 & Hc2).
    unfold well_timed. rewrite Hc1, Hc2, Hon. split; [by rewrite <- Hdec|].
    intros k t. destruct (checker_lookup st k) as (-> & _ & _).
    destruct (session_timers st !! k) as [t0|] eqn:Ht0; simpl; [|done].
    specialize (Hrange k t0 Ht0).
    destruct (Z.eqb_spec t0 0); [done|]. intros [= <-]. lia.
Qed.

Lemma well_timed_run opts evs : well_timed (run evs (MemoryStore_new opts)).
Proof.
  unfold run.
  assert (well_timed (MemoryStore_new opts)) as Hnew.
  { split; [done|]. intros k t. simpl. by rewrite lookup_empty. }
  revert Hnew. generalize (MemoryStore_new opts).
  induction evs as [|ev evs IH]; intros st Hst; [done|].
  simpl. by apply IH, well_timed_step.
Qed.

(** X3: timers stay within the countdown. After any history on a store
    built by the constructor, every timer lies between zero and the
    configured timeout when that is non-negative, and equals the timeout
    when it is negative: no timer is ever decremented below zero, and
    without a checker none is decremented at all. *)
Theorem timers_stay_in_range opts evs k t :
  session_timers (run evs (MemoryStore_new opts)) !! k = Some t →
  (0 ≤ options_timeout (MemoryStore_new opts) →
     0 ≤ t ≤ options_timeout (MemoryStore_new opts)) ∧
  (options_timeout (MemoryStore_new opts) < 0 →
     t = options_timeout (MemoryStore_new opts)).
Proof.
  intros Hk. destruct (well_timed_run opts evs) as [Hdec Hrange].
  destruct (run_config evs (MemoryStore_new opts)) as [Ht _].
  specialize (Hrange k t Hk). rewrite Hdec, Ht in Hrange.
  case_bool_decide; split; intros; lia.
Qed.

(** ** The sweeper on the whole store *)

Lemma iter_count_down_None n : Nat.iter n count_down None = None.
Proof. induction n as [|n IH]; [done|]. by rewrite Nat.iter_succ, IH. Qed.

Lemma iter_count_down n t :
  0 ≤ t →
  Nat.iter n count_down (Some t)
    = if t <? Z.of_nat n then None else Some (t - Z.of_nat n).
Proof.
  intros Ht. induction n as [|n IH].
  - simpl. destruct (Z.ltb_spec t (Z.of_nat 0)); [lia|]. f_equal. lia.
  - rewrite Nat.iter_succ, IH.
    destruct (Z.ltb_spec t (Z.of_nat n)), (Z.ltb_spec t (Z.of_nat (S n)));
      try lia; simpl; [done| |].
    + destruct (Z.eqb_spec (t - Z.of_nat n) 0); [done|lia].
    + destruct (Z.eqb_spec (t - Z.of_nat n) 0); [lia|]. f_equal. lia.
Qed.

Lemma iter_tick_timers n st k :
  session_timeout_checker st = true →
  session_timers (Nat.iter n tick st) !! k
    = Nat.iter n count_down (session_timers st !! k).
Proof.
  intros Hon. induction n as [|n IH]; [done|].
  rewrite !Nat.iter_succ, tick_installed.
  2:{ destruct (iter_tick_config n st) as [_ ->]. done. }
  destruct (checker_lookup (Nat.iter n tick st) k) as (-> & _ & _).
  by rewrite IH.
Qed.

Lemma has_timers_iter_tick n st :
  has_timers st → has_timers (Nat.iter n tick st).
Proof.
  intros Hst. induction n as [|n IH]; [done|]. rewrite Nat.iter_succ.
  by apply has_timers_tick.
Qed.

(** X4: the sweeper bounds the life of everything. In a store built with
    [timeout = N ≥ 0], after any history, [N + 1] sweep cycles with no
    operation in between leave both tables empty: records, timers of
    failed sets and all. With [N = 0] a single cycle does. *)
Theorem sweeps_empty_the_store (N : Z) evs :
  0 ≤ N →
  sessions (Nat.iter (S (Z.to_nat N)) tick
              (run evs (MemoryStore_new (Some {| timeout := Some N |})))) = ∅ ∧
  session_timers (Nat.iter (S (Z.to_nat N)) tick
              (run evs (MemoryStore_new (Some {| timeout := Some N |})))) = ∅.
Proof.
  intros HN.
  set (st := run evs (MemoryStore_new (Some {| timeout := Some N |}))).
  destruct (run_config evs (MemoryStore_new (Some {| timeout := Some N |})))
    as [Ht Hc]. fold st in Ht, Hc. simpl in Ht, Hc.
  assert (session_timeout_checker st = true) as Hon.
  { rewrite Hc. by apply bool_decide_eq_true. }
  assert (session_timers (Nat.iter (S (Z.to_nat N)) tick st) = ∅) as Htimers.
  { apply map_eq. intros k. rewrite lookup_empty, iter_tick_timers by done.
    destruct (session_timers st !! k) as [t|] eqn:Hk;
      [|apply iter_count_down_None].
    destruct (well_timed_run (Some {| timeout := Some N |}) evs) as [_ Hrange].
    fold st in Hrange. specialize (Hrange k t Hk). rewrite Hon, Ht in Hrange.
    rewrite iter_count_down by lia.
    destruct (Z.ltb_spec t (Z.of_nat (S (Z.to_nat N)))); [done|lia]. }
  split; [|done]. apply map_eq. intros k. rewrite lookup_empty.
  pose proof (has_timers_iter_tick (S (Z.to_nat N)) st
                (has_timers_run _ evs) k) as Hk.
  rewrite Htimers, lookup_empty in Hk.
  destruct (sessions (Nat.iter (S (Z.to_nat N)) tick st) !! k); [|done].
  destruct Hk as [? ?]; [by eexists|done].
Qed.

(** X5: one sweep, whatever the order. The loop of the checker may visit
    the keys of the Timer Table in any order: the result is the same
    store, in which every timer at zero has taken its key out of both
    tables, every other timer has lost one, and no stored string has
    changed. *)
Theorem sweep_does_not_depend_on_order ids st :
  NoDup ids →
  (∀ k, k ∈ ids ↔ is_Some (session_timers st !! k)) →
  foldl check_timeout st ids = checker st ∧
  session_timers (checker st)
    = omap (λ t, if t =? 0 then None else Some (t - 1)) (session_timers st) ∧
  sessions (checker st)
    = filter (λ kv, at_zero (session_timers st !! kv.1) = false) (sessions st).
Proof.
  intros Hnd Hids. split_and!.
  - apply store_eq.
    + apply map_eq. intros k.
      destruct (foldl_check_timeout ids st k Hnd) as (_ & -> & _).
      destruct (checker_lookup st k) as (_ & -> & _).
      case_decide as Hk; [done|].
      rewrite Hids, <- eq_None_not_Some in Hk. by rewrite Hk.
    + apply map_eq. intros k.
      destruct (foldl_check_timeout ids st k Hnd) as (-> & _ & _).
      destruct (checker_lookup st k) as (-> & _ & _).
      case_decide as Hk; [done|].
      rewrite Hids, <- eq_None_not_Some in Hk. by rewrite Hk.
    + destruct (foldl_check_timeout ids st "" Hnd) as (_ & _ & Hc1 & Hc2).
      destruct (checker_lookup st "") as (_ & _ & Hc3 & Hc4).
      unfold same_config. split; congruence.
  - apply map_eq. intros k. rewrite lookup_omap.
    destruct (checker_lookup st k) as (-> & _ & _).
    by destruct (session_timers st !! k).
  - apply map_eq. intros k. rewrite map_lookup_filter.
    destruct (checker_lookup st k) as (_ & -> & _). simpl.
    destruct (sessions st !! k) as [x|]; simpl.
    + by destruct (at_zero (session_timers st !! k)).
    + by destruct (at_zero _).
Qed.

(** ** Reads that keep a record alive *)

Lemma read_slot_lookup tbl id s :
  tbl !! id = Some (Some s) → read_slot tbl id = Some s.
Proof. unfold read_slot. by intros ->. Qed.

Lemma prolong_prolong id st : prolong id (prolong id st) = prolong id st.
Proof.
  apply store_eq; [done| |done]. simpl. apply insert_insert_eq.
Qed.

Lemma idle_round now id st s v e :
  session_timeout_checker st = true →
  1 ≤ options_timeout st →
  sessions st !! id = Some (Some s) →
  parse_expires s = Normal (v, e) →
  expired (to_expires e) now = Normal false →
  sessions (tick (getSession now id st).2) !! id = Some (Some s) ∧
  session_timers (tick (getSession now id st).2) !! id
    = Some (options_timeout st - 1) ∧
  same_config st (tick (getSession now id st).2).
Proof.
  intros Hon HN Hs Hp He.
  rewrite (getSession_Alive now id st s v e (read_slot_lookup _ _ _ Hs) Hp He).
  simpl. rewrite tick_installed by done.
  destruct (checker_lookup (prolong id st) id) as (-> & -> & Hc).
  simpl. rewrite lookup_insert_eq. simpl.
  destruct (Z.eqb_spec (options_timeout st) 0); [lia|done].
Qed.

Lemma idle_rounds id s v e times st :
  session_timeout_checker st = true →
  1 ≤ options_timeout st →
  sessions st !! id = Some (Some s) →
  parse_expires s = Normal (v, e) →
  (∀ now, now ∈ times → expired (to_expires e) now = Normal false) →
  sessions (run (read_every_cycle id times) st) !! id = Some (Some s) ∧
  (times ≠ [] →
   session_timers (run (read_every_cycle id times) st) !! id
     = Some (options_timeout st - 1)).
Proof.
  intros Hon HN Hs Hp. revert st Hon HN Hs.
  induction times as [|now times IH]; intros st Hon HN Hs Hlive; [done|].
  destruct (idle_round now id st s v e Hon HN Hs Hp) as (Hs1 & Ht1 & Hc1 & Hc2).
  { apply Hlive. left. }
  change (run (read_every_cycle id (now :: times)) st)
    with (run (read_every_cycle id times) (tick (getSession now id st).2)).
  destruct (IH (tick (getSession now id st).2)) as [IHs IHt];
    [congruence|lia|done|intros ? ?; apply Hlive; by right|].
  split; [done|]. intros _. destruct times as [|now' times'].
  - exact Ht1.
  - rewrite IHt by done. by rewrite Hc1.
Qed.

(** X6: a record that is read before every sweep is never swept. In a
    store built with [timeout = N ≥ 1], whatever happened before, a record
    that no read finds past its own deadline survives any number of
    rounds of one [get] followed by one sweep cycle, its stored string
    unchanged and its timer back at [N - 1] after each round. (With
    [N = 0] the read does not help: see the theorem on [N + 1] sweeps.) *)
Theorem read_every_cycle_survives (N : Z) evs id s v e times :
  1 ≤ N →
  sessions (run evs (MemoryStore_new (Some {| timeout := Some N |}))) !! id
    = Some (Some s) →
  parse_expires s = Normal (v, e) →
  (∀ now, now ∈ times → expired (to_expires e) now = Normal false) →
  sessions (run (read_every_cycle id times)
              (run evs (MemoryStore_new (Some {| timeout := Some N |})))) !! id
    = Some (Some s) ∧
  (times ≠ [] →
   session_timers (run (read_every_cycle id times)
              (run evs (MemoryStore_new (Some {| timeout := Some N |})))) !! id
     = Some (N - 1)).
Proof.
  intros HN Hs Hp Hlive.
  destruct (run_config evs (MemoryStore_new (Some {| timeout := Some N |})))
    as [Ht Hc]. simpl in Ht, Hc.
  destruct (idle_rounds id s v e times
              (run evs (MemoryStore_new (Some {| timeout := Some N |}))))
    as [H1 H2]; try done.
  - rewrite Hc. apply bool_decide_eq_true. lia.
  - by rewrite Ht.
  - split; [done|]. intros Hne. by rewrite (H2 Hne), Ht.
Qed.

(** ** [clear] *)

(** X7: [clear] puts a store back where the constructor left it. After
    any history, the cleared store equals the freshly built one (same
    timeout, same checker, empty tables); and on every cleared store [all]
    returns no record, [length] is [0], and every [get] finds nothing,
    without changing the store. *)
Theorem clear_restores_the_constructed_store opts evs now st :
  clear (run evs (MemoryStore_new opts)) = MemoryStore_new opts ∧
  all now (clear st) = (Normal ∅, clear st) ∧
  length now (clear st) = (Normal 0%nat, clear st) ∧
  (∀ id, get now id (clear st) = (Normal VUndefined, clear st)).
Proof.
  assert (all now (clear st) = (Normal ∅, clear st)) as Hall.
  { unfold all, Object_keys. simpl. by rewrite map_to_list_empty. }
  split_and!.
  - apply store_eq; [done|done|].
    destruct (run_config evs (MemoryStore_new opts)) as [H1 H2].
    by split.
  - done.
  - unfold length. by rewrite Hall.
  - intros id. unfold get. rewrite getSession_verdict.
    unfold read_slot. simpl. by rewrite lookup_empty.
Qed.

(** ** [get] twice *)

(** X8: at a fixed time, a second [get] of the same id tells the caller
    what the first one did and leaves the store as the first one left it:
    the same record with the timer still at the timeout, the same
    exception, or "not found" again after an eviction. *)
Theorem get_twice now id st :
  get now id (get now id st).2 = get now id st.
Proof.
  unfold get. rewrite (getSession_verdict now id st).
  destruct (verdict_of now (read_slot (sessions st) id)) eqn:Hv; simpl.
  - by rewrite getSession_verdict, Hv.
  - rewrite getSession_verdict. simpl. by rewrite Hv, prolong_prolong.
  - rewrite getSession_verdict. unfold read_slot. simpl.
    by rewrite lookup_delete_eq.
  - rewrite getSession_verdict. simpl. by rewrite Hv, prolong_prolong.
Qed.

(** ** What [all] and [length] return *)









(** ** [touch] and the deadline *)

(** X12: [touch] cannot bring a record back. On an id whose stored record
    is past its deadline, [touch] evicts the record, stores nothing of
    the new cookie and completes normally, whatever it is given as the
    session to copy from (its [cookie] is never read); on an id whose
    slot holds nothing readable as a string it changes nothing. *)
Theorem touch_does_not_revive now id r2 st :
  (∀ s v e,
     read_slot (sessions st) id = Some s →
     parse_expires s = Normal (v, e) →
     expired (to_expires e) now = Normal true →
     touch now id r2 st = (Normal (), destroy id st)) ∧
  (verdict_of now (read_slot (sessions st) id) = Missing →
     touch now id r2 st = (Normal (), st)).
Proof.
  split.
  - intros s v e Hs Hp He. unfold touch.
    by rewrite (getSession_Lapsed now id st s v e Hs Hp He).
  - intros Hv. unfold touch. by rewrite getSession_verdict, Hv.
Qed.

Lemma plain_set_prop v name c :
  plain v = true → plain c = true → plain (set_prop v name c) = true.
Proof.
  destruct v as [| | | | | | | |m]; simpl; try done.
  rewrite !map_all_true. intros Hm Hc k b. rewrite lookup_fmap.
  destruct (decide (name = k)) as [->|Hne].
  - rewrite lookup_insert_eq. simpl. congruence.
  - rewrite lookup_insert_ne by done. intros Hk. apply (Hm k).
    by rewrite lookup_fmap.
Qed.

(** X13: what a read sees after [touch]. On an id whose record is alive,
    after [touch] with a plain cookie the next [get] goes by the deadline
    of the new cookie, not of the old: if the new deadline is due the
    record is evicted and not returned; if it is not due [get] returns the
    old record with its [cookie] replaced by the new one; and if the
    comparison of the new deadline throws, [get] throws and the record
    stays as [touch] stored it. *)
Theorem get_after_touch now now' id r2 c2 e2 st s v e :
  read_slot (sessions st) id = Some s →
  parse_expires s = Normal (v, e) →
  expired (to_expires e) now = Normal false →
  get_prop r2 "cookie" = Normal c2 →
  plain c2 = true →
  get_prop c2 "expires" = Normal e2 →
  (touch now id r2 st).1 = Normal () ∧
  get now' id (touch now id r2 st).2 =
    match expired (to_expires e2) now' with
    | Normal true => (Normal VUndefined, destroy id st)
    | Normal false => (Normal (set_prop v "cookie" c2), (touch now id r2 st).2)
    | Throw err => (Throw err, (touch now id r2 st).2)
    end.
Proof.
  intros Hs Hp He Hc2 Hplain He2.
  destruct (parse_expires_Normal _ _ _ Hp) as (_ & j0 & m & c & -> & Hv & Hm & _).
  assert (plain (set_prop v "cookie" c2) = true) as Hpl.
  { apply plain_set_prop; [|done]. rewrite Hv. apply reify_plain. }
  destruct (JSON_stringify_plain _ Hpl) as (j & Hj & Hrj).
  assert (parse_expires (Json j) = Normal (set_prop v "cookie" c2, e2)) as Hpj.
  { rewrite <- Hrj. apply parse_expires_reify. rewrite Hrj, Hm. simpl.
    rewrite lookup_insert_eq. simpl. done. }
  assert (touch now id r2 st
          = (Normal (), with_sessions (<[id := Some (Json j)]>) (prolong id st)))
    as Htouch.
  { unfold touch. rewrite (getSession_Alive now id st _ v e Hs Hp He).
    rewrite Hm at 1. simpl. rewrite Hc2. simpl. by rewrite Hj. }
  rewrite Htouch. split; [done|]. unfold get. cbn [snd].
  destruct (expired (to_expires e2) now') as [[|]|err] eqn:He2'.
  - erewrite getSession_Lapsed; [|simpl; apply read_slot_insert|done|done].
    f_equal. apply store_eq; [| |done]; simpl; by rewrite delete_insert_eq.
  - erewrite getSession_Alive; [|simpl; apply read_slot_insert|done|done].
    f_equal. apply store_eq; [done| |done]. simpl. apply insert_insert_eq.
  - rewrite getSession_verdict. simpl. rewrite read_slot_insert. simpl.
    rewrite Hpj, He2'. f_equal.
    apply store_eq; [done| |done]. simpl. apply insert_insert_eq.
Qed.

(** ** A [Date] as deadline *)

(** X14: a deadline given as a [Date] goes through the codec as a date
    string and still expires on time. If the runtime reads back the ISO
    string it prints for [t], then after [set] of a record whose
    [cookie.expires] is the date [t], [get] finds nothing and evicts the
    record as soon as [t <= now]; before that it returns the record, in
    which [cookie.expires] has become the ISO string. *)
Theorem date_deadline_expires_on_time now id st m c t :
  m !! "cookie" = Some (VObj c) →
  c !! "expires" = Some (VDate (Some t)) →
  contains_bigint (VObj m) = false →
  Date_parse (Date_toISOString t) = Some t →
  ∃ st1 v,
    set id (VObj m) st = (Normal (), st1) ∧
    cbind (get_prop v "cookie") (λ cookie, get_prop cookie "expires")
      = Normal (VStr (Date_toISOString t)) ∧
    get now id st1 =
      if t <=? now then (Normal VUndefined, destroy id st)
      else (Normal v, prolong id st1).
Proof.
  intros Hm Hc Hbig Hrt.
  set (j := JObj (omap SerializeJSONProperty m)).
  assert (cbind (get_prop (reify j) "cookie")
            (λ cookie, get_prop cookie "expires")
          = Normal (VStr (Date_toISOString t))) as Hexp.
  { simpl. rewrite lookup_fmap, lookup_omap, Hm. simpl.
    by rewrite lookup_fmap, lookup_omap, Hc. }
  exists (with_sessions (<[id := Some (Json j)]>)
            match read_slot (sessions st) id with
            | Some _ => st
            | None => prolong id st
            end), (reify j).
  split_and!.
  - unfold set, JSON_stringify. by rewrite Hbig.
  - done.
  - unfold get. pose proof (parse_expires_reify j _ Hexp) as Hp.
    assert (expired (to_expires (VStr (Date_toISOString t))) now
            = Normal (t <=? now))
      as He by (unfold expired; simpl; by rewrite Hrt).
    destruct (t <=? now) eqn:Hle.
    + erewrite getSession_Lapsed; [|simpl; apply read_slot_insert|done|done].
      f_equal. apply store_eq; simpl.
      * rewrite delete_insert_eq. by destruct (read_slot (sessions st) id).
      * destruct (read_slot (sessions st) id); simpl; [done|].
        by rewrite delete_insert_eq.
      * by destruct (read_slot (sessions st) id).
    + by erewrite getSession_Alive; [|simpl; apply read_slot_insert|done|done].
Qed.

(** ** A deadline that cannot be compared *)

Lemma to_string_throws_expired e now :
  to_string_throws e = true → expired (to_expires e) now = Throw TypeError.
Proof.
  unfold expired. destruct e as [| | | | | | |l|m]; simpl; try done.
  - by intros ->.
  - by intros ->.
Qed.

(** X15: a stored record whose [cookie.expires] is an object with an own
    [toString] property, or an array that holds such an object, cannot be
    read: the comparison with the current time throws a [TypeError] after
    the timer has been prolonged. [get] and [touch] throw and leave the
    record in place, [all] and [length] throw. *)
Theorem uncomparable_deadline_throws now id st s v e :
  read_slot (sessions st) id = Some s →
  parse_expires s = Normal (v, e) →
  to_string_throws e = true →
  get now id st = (Throw TypeError, prolong id st) ∧
  (∀ r2, touch now id r2 st = (Throw TypeError, prolong id st)) ∧
  sessions (prolong id st) !! id = Some (Some s) ∧
  is_Throw (all now st).1 ∧
  is_Throw (length now st).1.
Proof.
  intros Hs Hp He.
  assert (getSession now id st = (Throw TypeError, prolong id st)) as Hg.
  { rewrite getSession_verdict, Hs. simpl.
    destruct (parse_expires_Normal _ _ _ Hp) as [-> _].
    by rewrite Hp, (to_string_throws_expired e now He). }
  assert (is_Throw (all now st).1) as Hall.
  { pose proof (all_spec now st) as Hspec.
    destruct (all now st) as [[m|err] st']; [|done].
    destruct (Hspec id) as ((w & Hw & _) & _). by rewrite Hg in Hw. }
  split_and!; [done| |by apply read_slot_Some|done|].
  - intros r2. unfold touch. by rewrite Hg.
  - unfold length. by destruct (all now st) as [[m|err] st'].
Qed.

End Runtime.

(** ** The theorems at concrete stores

    The stores below are built by the constructor and the public
    operations, under the runtime that knows the epoch. *)

Lemma set_get_round_trip_witness :
  let r := VObj {[ "cookie" := VObj {[ "expires" := VNum 2000 ]};
                   "user" := VStr "ann" ]} in
  plain r = true ∧
  cbind (get_prop r "cookie") (λ c, get_prop c "expires") = Normal (VNum 2000) ∧
  expired epoch_coerced_le (to_expires epoch_Date_parse (VNum 2000)) 1000 = Normal false ∧
  ∃ st1, set epoch_Date_toISOString "a" r (MemoryStore_new None) = (Normal (), st1) ∧
         get epoch_Date_parse epoch_coerced_le 1000 "a" st1
           = (Normal r, prolong "a" st1).
Proof.
  intros r. split_and!; [vm_compute; reflexivity..|].
  apply (set_get_round_trip epoch_Date_parse epoch_Date_toISOString
           epoch_coerced_le 1000 "a" r (VNum 2000) (MemoryStore_new None));
    vm_compute; reflexivity.
Defined.

Lemma destroy_idempotent_witness :
  let st := MemoryStore_new None in
  sessions st !! "a" = None ∧ session_timers st !! "a" = None ∧
  destroy "a" st = st.
Proof.
  intros st. split_and!; [vm_compute; reflexivity..|].
  destruct (destroy_idempotent epoch_Date_parse epoch_Date_toISOString
              epoch_coerced_le "a" st) as (_ & _ & H).
  apply H; vm_compute; reflexivity.
Defined.

Lemma lazy_boundary_inclusive_witness :
  let r := VObj {[ "cookie" := VObj {[ "expires" := VNum 1000 ]} ]} in
  let s := Json (JObj {[ "cookie" := JObj {[ "expires" := JNum 1000 ]} ]}) in
  let st := (set epoch_Date_toISOString "a" r (MemoryStore_new None)).2 in
  read_slot (sessions st) "a" = Some s ∧
  parse_expires s = Normal (r, VNum 1000) ∧
  get epoch_Date_parse epoch_coerced_le 1000 "a" st
    = (Normal VUndefined, destroy "a" st).
Proof.
  intros r s st. split_and!; [vm_compute; reflexivity..|].
  destruct (lazy_boundary_inclusive epoch_Date_parse epoch_coerced_le 1000 "a" st
              s r (VNum 1000)) as [H _];
    [vm_compute; reflexivity|vm_compute; reflexivity|].
  apply H. left. split; [reflexivity|lia].
Defined.

Lemma sweep_evicts_on_cycle_N_plus_1_witness :
  let r := VObj {[ "cookie" := VObj ∅ ]} in
  let st := run epoch_Date_parse epoch_Date_toISOString epoch_coerced_le []
              (MemoryStore_new (Some {| timeout := Some 0 |})) in
  let st1 := (set epoch_Date_toISOString "a" r st).2 in
  0 ≤ 0 ∧
  read_slot (sessions st) "a" = None ∧
  set epoch_Date_toISOString "a" r st = (Normal (), st1) ∧
  "a" ∉ dom (sessions (Nat.iter 1 tick st1)).
Proof.
  intros r st st1. split_and!; [lia|vm_compute; reflexivity|vm_compute; reflexivity|].
  destruct (sweep_evicts_on_cycle_N_plus_1 epoch_Date_parse epoch_Date_toISOString
              epoch_coerced_le 0 [] "a" r st1) as (_ & _ & H & _);
    [lia|vm_compute; reflexivity|vm_compute; reflexivity|exact H].
Defined.

Lemma negative_timeout_never_sweeps_witness :
  let r := VObj {[ "cookie" := VObj ∅ ]} in
  let st := run epoch_Date_parse epoch_Date_toISOString epoch_coerced_le []
              (MemoryStore_new None) in
  let st1 := (set epoch_Date_toISOString "a" r st).2 in
  options_timeout (MemoryStore_new None) < 0 ∧
  set epoch_Date_toISOString "a" r st = (Normal (), st1) ∧
  "a" ∈ dom (sessions (Nat.iter 5 tick st1)).
Proof.
  intros r st st1. split_and!; [vm_compute; reflexivity|vm_compute; reflexivity|].
  destruct (negative_timeout_never_sweeps epoch_Date_parse epoch_Date_toISOString
              epoch_coerced_le None [] "a" r st1 5) as (_ & H & _);
    [vm_compute; reflexivity|vm_compute; reflexivity|exact H].
Defined.

Lemma lapsed_record_never_returned_witness :
  let r := VObj {[ "cookie" := VObj {[ "expires" := VNum 500 ]} ]} in
  let s := Json (JObj {[ "cookie" := JObj {[ "expires" := JNum 500 ]} ]}) in
  let st := (set epoch_Date_toISOString "b" r (MemoryStore_new None)).2 in
  read_slot (sessions st) "b" = Some s ∧
  parse_expires s = Normal (r, VNum 500) ∧
  deadline epoch_Date_parse (VNum 500) = Some 500 ∧
  500 < 1000 ∧
  VNum 500 ≠ VNum 0 ∧
  get epoch_Date_parse epoch_coerced_le 1000 "b" st
    = (Normal VUndefined, destroy "b" st).
Proof.
  intros r s st. split_and!; [vm_compute; reflexivity|vm_compute; reflexivity|vm_compute; reflexivity|lia|discriminate|].
  destruct (lapsed_record_never_returned epoch_Date_parse epoch_Date_toISOString
              epoch_coerced_le 1000 "b" st s r (VNum 500) 500) as (H & _);
    [vm_compute; reflexivity|vm_compute; reflexivity|vm_compute; reflexivity
    |lia|discriminate|exact H].
Defined.

Lemma timer_reset_on_create_and_read_witness :
  let r := VObj {[ "cookie" := VObj ∅ ]} in
  let st := MemoryStore_new (Some {| timeout := Some 7 |}) in
  read_slot (sessions st) "a" = None ∧
  session_timers (set epoch_Date_toISOString "a" r st).2 !! "a" = Some 7.
Proof.
  intros r st. split; [vm_compute; reflexivity|].
  destruct (timer_reset_on_create_and_read epoch_Date_parse epoch_Date_toISOString
              epoch_coerced_le 0 "a" r st) as (H & _).
  apply H. vm_compute; reflexivity.
Defined.

Lemma failed_set_leaves_orphan_timer_witness :
  let r := VObj {[ "cookie" := VObj ∅; "visits" := VBigInt 1 ]} in
  let st := MemoryStore_new None in
  contains_bigint r = true ∧
  sessions st !! "a" = None ∧
  step epoch_Date_parse epoch_Date_toISOString epoch_coerced_le (Set_ "a" r) st
    = (Throw TypeError, prolong "a" st) ∧
  ¬ lockstep (step epoch_Date_parse epoch_Date_toISOString epoch_coerced_le
                (Set_ "a" r) st).2.
Proof.
  intros r st.
  destruct (failed_set_leaves_orphan_timer epoch_Date_parse epoch_Date_toISOString
              epoch_coerced_le "a" r st) as (H1 & _ & _ & H2);
    [vm_compute; reflexivity|vm_compute; reflexivity|].
  split_and!; [vm_compute; reflexivity|vm_compute; reflexivity|exact H1|exact H2].
Defined.

Lemma touch_replaces_cookie_only_witness :
  let r1 := VObj {[ "cookie" := VObj {[ "expires" := VNum 2000 ]};
                    "user" := VStr "ann" ]} in
  let c2 := VObj {[ "expires" := VNum 3000 ]} in
  let r2 := VObj {[ "cookie" := c2 ]} in
  let s := Json (JObj {[ "cookie" := JObj {[ "expires" := JNum 2000 ]};
                         "user" := JStr "ann" ]}) in
  let st0 := MemoryStore_new None in
  let st := (set epoch_Date_toISOString "a" r1 st0).2 in
  (read_slot (sessions st) "a" = Some s ∧
   parse_expires s = Normal (r1, VNum 2000) ∧
   expired epoch_coerced_le (to_expires epoch_Date_parse (VNum 2000)) 1000 = Normal false ∧
   get_prop r2 "cookie" = Normal c2 ∧
   contains_bigint c2 = false ∧
   ∃ st' m1 m',
     touch epoch_Date_parse epoch_Date_toISOString epoch_coerced_le 1000 "a" r2 st
       = (Normal (), st') ∧
     s = Json (JObj m1) ∧
     read_slot (sessions st') "a" = Some (Json (JObj m')) ∧
     (∀ k, k ≠ "cookie" → m' !! k = m1 !! k) ∧
     m' !! "cookie" = SerializeJSONProperty epoch_Date_toISOString c2 ∧
     (plain c2 = true → reify <$> m' !! "cookie" = Some c2) ∧
     (∀ k, k ≠ "a" → sessions st' !! k = sessions st !! k)) ∧
  ((getSession epoch_Date_parse epoch_coerced_le 1000 "a" st0).1 = Normal VUndefined ∧
   ∃ st', touch epoch_Date_parse epoch_Date_toISOString epoch_coerced_le 1000 "a" r2 st0
            = (Normal (), st') ∧
          dom (sessions st') ⊆ dom (sessions st0)).
Proof.
  intros r1 c2 r2 s st0 st. split.
  - split_and!; [vm_compute; reflexivity..|].
    apply (proj1 (touch_replaces_cookie_only epoch_Date_parse epoch_Date_toISOString
                    epoch_coerced_le 1000 "a" r2 st) s r1 (VNum 2000));
      vm_compute; reflexivity.
  - split; [vm_compute; reflexivity|].
    apply (proj2 (touch_replaces_cookie_only epoch_Date_parse epoch_Date_toISOString
                    epoch_coerced_le 1000 "a" r2 st0)).
    vm_compute; reflexivity.
Defined.

Lemma unreadable_record_throws_witness :
  let r := VObj {[ "user" := VStr "ann" ]} in
  let s := Json (JObj {[ "user" := JStr "ann" ]}) in
  let st := (set epoch_Date_toISOString "a" r (MemoryStore_new None)).2 in
  read_slot (sessions st) "a" = Some s ∧
  string_truthy s = true ∧
  unreadable s ∧
  ∃ err,
    get epoch_Date_parse epoch_coerced_le 0 "a" st = (Throw err, prolong "a" st) ∧
    (∀ r2, touch epoch_Date_parse epoch_Date_toISOString epoch_coerced_le 0 "a" r2 st
             = (Throw err, prolong "a" st)) ∧
    sessions (prolong "a" st) !! "a" = Some (Some s) ∧
    is_Throw (all epoch_Date_parse epoch_coerced_le 0 st).1 ∧
    is_Throw (length epoch_Date_parse epoch_coerced_le 0 st).1.
Proof.
  intros r s st. split_and!; [vm_compute; reflexivity..|].
  apply (unreadable_record_throws epoch_Date_parse epoch_Date_toISOString
           epoch_coerced_le 0 "a" st s); vm_compute; reflexivity.
Defined.

(** ** Where the claims as written fail *)

(** C1 as written: a deadline of zero is a timestamp in the past at any
    later time, yet the record is returned and stays in both tables. *)
Lemma zero_deadline_is_returned :
  let r := VObj {[ "cookie" := VObj {[ "expires" := VNum 0 ]} ]} in
  let st := (set epoch_Date_toISOString "a" r (MemoryStore_new None)).2 in
  let out := get epoch_Date_parse epoch_coerced_le 1000 "a" st in
  deadline epoch_Date_parse (VNum 0) = Some 0 ∧
  0 < 1000 ∧
  out.1 = Normal r ∧
  out.1 ≠ Normal VUndefined ∧
  is_Some (sessions out.2 !! "a") ∧
  is_Some (session_timers out.2 !! "a").
Proof.
  intros r st out.
  split_and!; [vm_compute; reflexivity|lia|vm_compute; reflexivity| | |].
  - intros H. vm_compute in H. discriminate H.
  - refine (bool_decide_unpack _ _). vm_compute. exact I.
  - refine (bool_decide_unpack _ _). vm_compute. exact I.
Qed.

(** C3 as written: a [set] on a key that is already there does not reset
    its timer. With [timeout = 2], after one sweep the timer is at 1 and the
    second [set] leaves it there. *)
Lemma set_again_keeps_timer :
  let r := VObj {[ "cookie" := VObj ∅ ]} in
  let st := run epoch_Date_parse epoch_Date_toISOString epoch_coerced_le
              [Set_ "a" r; Tick]
              (MemoryStore_new (Some {| timeout := Some 2 |})) in
  let out := step epoch_Date_parse epoch_Date_toISOString epoch_coerced_le
               (Set_ "a" r) st in
  is_Some (sessions st !! "a") ∧
  out.1 = Normal Done ∧
  options_timeout out.2 = 2 ∧
  session_timers out.2 !! "a" = Some 1 ∧
  session_timers out.2 !! "a" ≠ Some (options_timeout out.2).
Proof.
  intros r st out. split_and!; try (vm_compute; reflexivity).
  - refine (bool_decide_unpack _ _). vm_compute. exact I.
  - intros H. vm_compute in H. discriminate H.
Qed.

(** C9 as written: a slot that holds [undefined], which is what
    [set(id, undefined)] stores, is not encoded data, yet [get], [touch]
    and [all] complete normally on it and change nothing. The same goes for
    a slot that holds the empty string. *)
Lemma undefined_slot_reads_not_found :
  let st := (set epoch_Date_toISOString "a" VUndefined (MemoryStore_new None)).2 in
  let st' := with_sessions (<["a" := Some (Malformed "")]>) st in
  sessions st !! "a" = Some None ∧
  Object_keys (sessions st) = ["a"] ∧
  get epoch_Date_parse epoch_coerced_le 0 "a" st = (Normal VUndefined, st) ∧
  touch epoch_Date_parse epoch_Date_toISOString epoch_coerced_le 0 "a"
    (VObj {[ "cookie" := VObj ∅ ]}) st = (Normal (), st) ∧
  all epoch_Date_parse epoch_coerced_le 0 st = (Normal ∅, st) ∧
  ¬ is_Throw (get epoch_Date_parse epoch_coerced_le 0 "a" st).1 ∧
  unreadable (Malformed "") ∧
  get epoch_Date_parse epoch_coerced_le 0 "a" st' = (Normal VUndefined, st') ∧
  all epoch_Date_parse epoch_coerced_le 0 st' = (Normal ∅, st').
Proof.
  intros st st'. split_and!; try (vm_compute; reflexivity).
  intros H. vm_compute in H. exact H.
Qed.

(** ** The further properties at concrete stores *)

Lemma step_touches_its_key_only_witness :
  let r := VObj {[ "cookie" := VObj ∅ ]} in
  let st := run epoch_Date_parse epoch_Date_toISOString epoch_coerced_le
              [Set_ "b" r] (MemoryStore_new None) in
  event_key (Set_ "a" r) = Some "a" ∧
  "a" ≠ "b" ∧
  sessions (step epoch_Date_parse epoch_Date_toISOString epoch_coerced_le
              (Set_ "a" r) st).2 !! "b" = sessions st !! "b" ∧
  session_timers (step epoch_Date_parse epoch_Date_toISOString epoch_coerced_le
              (Set_ "a" r) st).2 !! "b" = session_timers st !! "b".
Proof.
  intros r st. split_and!; [vm_compute; reflexivity|discriminate| |];
    apply (step_touches_its_key_only epoch_Date_parse epoch_Date_toISOString
             epoch_coerced_le (Set_ "a" r) "a" "b" st);
    (vm_compute; reflexivity) || discriminate.
Defined.

Lemma timers_stay_in_range_witness :
  let r := VObj {[ "cookie" := VObj ∅ ]} in
  let opts := Some {| timeout := Some 3 |} in
  session_timers (run epoch_Date_parse epoch_Date_toISOString epoch_coerced_le
                    [Set_ "a" r; Tick] (MemoryStore_new opts)) !! "a" = Some 2 ∧
  (0 ≤ options_timeout (MemoryStore_new opts) →
   0 ≤ 2 ≤ options_timeout (MemoryStore_new opts)).
Proof.
  intros r opts. split; [vm_compute; reflexivity|].
  destruct (timers_stay_in_range epoch_Date_parse epoch_Date_toISOString
              epoch_coerced_le opts [Set_ "a" r; Tick] "a" 2) as [H _];
    [vm_compute; reflexivity|exact H].
Defined.

Lemma sweeps_empty_the_store_witness :
  let r := VObj {[ "cookie" := VObj ∅ ]} in
  0 ≤ 1 ∧
  sessions (Nat.iter (S (Z.to_nat 1)) tick
              (run epoch_Date_parse epoch_Date_toISOString epoch_coerced_le
                 [Set_ "a" r; Set_ "b" (VBigInt 1)]
                 (MemoryStore_new (Some {| timeout := Some 1 |})))) = ∅.
Proof.
  intros r. split; [lia|].
  destruct (sweeps_empty_the_store epoch_Date_parse epoch_Date_toISOString
              epoch_coerced_le 1 [Set_ "a" r; Set_ "b" (VBigInt 1)]) as [H _];
    [lia|exact H].
Defined.

Lemma sweep_does_not_depend_on_order_witness :
  let r := VObj {[ "cookie" := VObj ∅ ]} in
  let st := run epoch_Date_parse epoch_Date_toISOString epoch_coerced_le
              [Set_ "a" r; Tick; Set_ "b" r]
              (MemoryStore_new (Some {| timeout := Some 1 |})) in
  NoDup ["b"; "a"] ∧
  (∀ k, k ∈ ["b"; "a"] ↔ is_Some (session_timers st !! k)) ∧
  foldl check_timeout st ["b"; "a"] = checker st.
Proof.
  intros r st.
  assert (NoDup ["b"; "a"]) as Hnd.
  { apply (bool_decide_unpack _). vm_compute. exact I. }
  assert (∀ k, k ∈ ["b"; "a"] ↔ is_Some (session_timers st !! k)) as Hids.
  { intros k. rewrite <- elem_of_Object_keys.
    replace (Object_keys (session_timers st)) with ["a"; "b"]
      by (vm_compute; reflexivity).
    rewrite !elem_of_cons. tauto. }
  split_and!; [done|done|].
  destruct (sweep_does_not_depend_on_order ["b"; "a"] st Hnd Hids) as [H _].
  exact H.
Defined.

Lemma read_every_cycle_survives_witness :
  let r := VObj {[ "cookie" := VObj ∅ ]} in
  let s := Json (JObj {[ "cookie" := JObj ∅ ]}) in
  let st := run epoch_Date_parse epoch_Date_toISOString epoch_coerced_le
              [Set_ "a" r] (MemoryStore_new (Some {| timeout := Some 1 |})) in
  1 ≤ 1 ∧
  sessions st !! "a" = Some (Some s) ∧
  parse_expires s = Normal (r, VUndefined) ∧
  (∀ now, now ∈ [10; 20; 30] →
     expired epoch_coerced_le (to_expires epoch_Date_parse VUndefined) now = Normal false) ∧
  sessions (run epoch_Date_parse epoch_Date_toISOString epoch_coerced_le
              (read_every_cycle "a" [10; 20; 30]) st) !! "a" = Some (Some s).
Proof.
  intros r s st.
  split_and!; [lia|vm_compute; reflexivity|vm_compute; reflexivity
              |intros now _; reflexivity|].
  destruct (read_every_cycle_survives epoch_Date_parse epoch_Date_toISOString
              epoch_coerced_le 1 [Set_ "a" r] "a" s r VUndefined [10; 20; 30])
    as [H _];
    [lia|vm_compute; reflexivity|vm_compute; reflexivity
    |intros now _; reflexivity|exact H].
Defined.




Lemma touch_does_not_revive_witness :
  let due := VObj {[ "cookie" := VObj {[ "expires" := VNum 500 ]} ]} in
  let s := Json (JObj {[ "cookie" := JObj {[ "expires" := JNum 500 ]} ]}) in
  let st := run epoch_Date_parse epoch_Date_toISOString epoch_coerced_le
              [Set_ "a" due] (MemoryStore_new None) in
  read_slot (sessions st) "a" = Some s ∧
  parse_expires s = Normal (due, VNum 500) ∧
  expired epoch_coerced_le (to_expires epoch_Date_parse (VNum 500)) 1000 = Normal true ∧
  touch epoch_Date_parse epoch_Date_toISOString epoch_coerced_le 1000 "a"
    VUndefined st = (Normal (), destroy "a" st).
Proof.
  intros due s st. split_and!; [vm_compute; reflexivity..|].
  apply (proj1 (touch_does_not_revive epoch_Date_parse epoch_Date_toISOString
                  epoch_coerced_le 1000 "a" VUndefined st) s due (VNum 500));
    vm_compute; reflexivity.
Defined.

Lemma get_after_touch_witness :
  let r1 := VObj {[ "cookie" := VObj {[ "expires" := VNum 2000 ]};
                    "user" := VStr "ann" ]} in
  let c2 := VObj {[ "expires" := VNum 3000 ]} in
  let r2 := VObj {[ "cookie" := c2 ]} in
  let s := Json (JObj {[ "cookie" := JObj {[ "expires" := JNum 2000 ]};
                         "user" := JStr "ann" ]}) in
  let st := run epoch_Date_parse epoch_Date_toISOString epoch_coerced_le
              [Set_ "a" r1] (MemoryStore_new None) in
  read_slot (sessions st) "a" = Some s ∧
  parse_expires s = Normal (r1, VNum 2000) ∧
  expired epoch_coerced_le (to_expires epoch_Date_parse (VNum 2000)) 1000 = Normal false ∧
  get_prop r2 "cookie" = Normal c2 ∧
  plain c2 = true ∧
  get_prop c2 "expires" = Normal (VNum 3000) ∧
  (get epoch_Date_parse epoch_coerced_le 2500 "a"
     (touch epoch_Date_parse epoch_Date_toISOString epoch_coerced_le
        1000 "a" r2 st).2).1
    = Normal (VObj {[ "cookie" := c2; "user" := VStr "ann" ]}).
Proof.
  intros r1 c2 r2 s st. split_and!; [vm_compute; reflexivity..|].
  destruct (get_after_touch epoch_Date_parse epoch_Date_toISOString
              epoch_coerced_le 1000 2500 "a" r2 c2 (VNum 3000) st s r1 (VNum 2000))
    as [_ H]; [vm_compute; reflexivity..|].
  rewrite H. vm_compute; reflexivity.
Defined.

Lemma date_deadline_expires_on_time_witness :
  let c : gmap string value := {[ "expires" := VDate (Some 0) ]} in
  let m : gmap string value := {[ "cookie" := VObj c ]} in
  m !! "cookie" = Some (VObj c) ∧
  c !! "expires" = Some (VDate (Some 0)) ∧
  contains_bigint (VObj m) = false ∧
  epoch_Date_parse (epoch_Date_toISOString 0) = Some 0 ∧
  ∃ st1 v,
    set epoch_Date_toISOString "a" (VObj m) (MemoryStore_new None)
      = (Normal (), st1) ∧
    cbind (get_prop v "cookie") (λ cookie, get_prop cookie "expires")
      = Normal (VStr (epoch_Date_toISOString 0)) ∧
    get epoch_Date_parse epoch_coerced_le 5 "a" st1 =
      if 0 <=? 5 then (Normal VUndefined, destroy "a" (MemoryStore_new None))
      else (Normal v, prolong "a" st1).
Proof.
  intros c m. split_and!; [vm_compute; reflexivity..|].
  apply (date_deadline_expires_on_time epoch_Date_parse epoch_Date_toISOString
           epoch_coerced_le 5 "a" (MemoryStore_new None) m c 0);
    vm_compute; reflexivity.
Defined.

Lemma uncomparable_deadline_throws_witness :
  let r := VObj {[ "cookie" := VObj {[ "expires" := VObj {[ "toString" := VNum 1 ]} ]} ]} in
  let s := Json (JObj {[ "cookie" := JObj {[ "expires" := JObj {[ "toString" := JNum 1 ]} ]} ]}) in
  let st := run epoch_Date_parse epoch_Date_toISOString epoch_coerced_le
              [Set_ "a" r] (MemoryStore_new None) in
  plain r = true ∧
  read_slot (sessions st) "a" = Some s ∧
  parse_expires s = Normal (r, VObj {[ "toString" := VNum 1 ]}) ∧
  to_string_throws (VObj {[ "toString" := VNum 1 ]}) = true ∧
  get epoch_Date_parse epoch_coerced_le 1000 "a" st
    = (Throw TypeError, prolong "a" st) ∧
  is_Throw (length epoch_Date_parse epoch_coerced_le 1000 st).1.
Proof.
  intros r s st.
  destruct (uncomparable_deadline_throws epoch_Date_parse epoch_Date_toISOString
              epoch_coerced_le 1000 "a" st s r (VObj {[ "toString" := VNum 1 ]}))
    as (Hget & _ & _ & _ & Hlen); [vm_compute; reflexivity..|].
  split_and!; [vm_compute; reflexivity..|exact Hget|exact Hlen].
Defined.
